(** * Gopher browser core: transport, parsers, navigation controller

    A shallow embedding of [gopher_browser.cpp]: the bounded fetch
    ([fetch_gopher]), the two response parsers ([parse_gopher_menu],
    [parse_text_file]) and the navigation state machine ([push_history],
    [go_back], [navigate_to], [move_selection]).

    Conventions of the embedding.
    - A [std::string] is a list of characters ([str]); [s += c] is
      [s ++ [c]], [s.substr(0, n-1)] is [removelast], [v.push_back(x)] is
      [v ++ [x]], [v.erase(v.begin())] is [tl], [v.back()] is [last].
    - A C [int] is a [Z]. Every integer the modelled operations compute is an
      index, a count or a port read from at most ten digits after
      saturation, so no wrap-around arises; the one place where the C
      library leaves the result open ([atoi] on an unrepresentable number)
      is written out.
    - The global variables of the program are the fields of [State]; an
      operation is a function from [State] to [State].
    - The network is an argument ([Network]): what name resolution and the
      connection yield, whether [send] succeeds, and the sequence of buffers
      that successive [recv] calls deliver; a timeout is the end of that
      sequence. The sequence is finite: a peer that never stops sending
      is outside the model.
    - A [const char *] parameter is the content of the C string it points
      to; where the code reads a [std::string] or a buffer as a C string,
      [c_str] is written. *)

From Stdlib Require Import List ZArith Bool Ascii String Lia.
Import ListNotations.

Local Open Scope Z_scope.

(* ------------------------------------------------------------------ *)
(** ** Strings *)

Definition str := list ascii.

Definition lit (s : string) : str := list_ascii_of_string s.

Definition NUL : ascii := ascii_of_nat 0.
Definition TAB : ascii := ascii_of_nat 9.
Definition LF : ascii := ascii_of_nat 10.
Definition VT : ascii := ascii_of_nat 11.
Definition FF : ascii := ascii_of_nat 12.
Definition CR : ascii := ascii_of_nat 13.
Definition SP : ascii := ascii_of_nat 32.

Arguments NUL : simpl never.
Arguments TAB : simpl never.
Arguments LF : simpl never.
Arguments CR : simpl never.
Arguments SP : simpl never.

Fixpoint str_eqb (a b : str) : bool :=
  match a, b with
  | [], [] => true
  | x :: a', y :: b' => Ascii.eqb x y && str_eqb a' b'
  | _, _ => false
  end.

(** [s.empty()], for a string and for a vector. *)
Definition empty {A : Type} (s : list A) : bool :=
  match s with [] => true | _ :: _ => false end.

(** The content of a [const char *] taken from a buffer: the characters
    before the first NUL ([s.c_str()] read as a C string, [r += buffer]). *)
Fixpoint c_str (s : str) : str :=
  match s with
  | [] => []
  | c :: rest => if Ascii.eqb c NUL then [] else c :: c_str rest
  end.

(** [size()] / [length()] as an integer. *)
Definition size {A : Type} (l : list A) : Z := Z.of_nat (List.length l).

(* ------------------------------------------------------------------ *)
(** ** Constants *)

Definition kFontSize : Z := 14.
Definition kTitleFontSize : Z := 20.
Definition kLineHeight : Z := kFontSize + 4.
Definition kMaxHistory : Z := 50.
Definition kSocketTimeout : Z := 15.
Definition kDefaultGopherPort : Z := 70.
Definition kMaxResponseSize : Z := 512 * 1024.
Definition kScreenMargin : Z := 1.

Definition INT_MAX : Z := 2147483647.
Definition INT_MIN : Z := -2147483648.

(** [enum GopherItemType]: the enumerators are character codes. *)
Definition GOPHER_TEXT : ascii := "0"%char.
Definition GOPHER_MENU : ascii := "1"%char.
Definition GOPHER_CSO : ascii := "2"%char.
Definition GOPHER_ERROR : ascii := "3"%char.
Definition GOPHER_BINHEX : ascii := "4"%char.
Definition GOPHER_DOS : ascii := "5"%char.
Definition GOPHER_UUENCODE : ascii := "6"%char.
Definition GOPHER_SEARCH : ascii := "7"%char.
Definition GOPHER_TELNET : ascii := "8"%char.
Definition GOPHER_BINARY : ascii := "9"%char.
Definition GOPHER_REDUNDANT : ascii := "+"%char.
Definition GOPHER_TN3270 : ascii := "T"%char.
Definition GOPHER_GIF : ascii := "g"%char.
Definition GOPHER_IMAGE : ascii := "I"%char.
Definition GOPHER_INFO : ascii := "i"%char.
Definition GOPHER_HTML : ascii := "h"%char.
Definition GOPHER_SOUND : ascii := "s"%char.
Definition GOPHER_DOC : ascii := "d"%char.

(* ------------------------------------------------------------------ *)
(** ** Data structures *)

(** [struct GopherItem]. [item_port] is [None] while the field has never
    been written: [parse_text_file] declares an item and assigns only
    [type] and [display]. *)
Record GopherItem := mkItem {
  item_type : ascii;
  item_display : str;
  item_selector : str;
  item_host : str;
  item_port : option Z
}.

Definition is_selectable (it : GopherItem) : bool :=
  let type := item_type it in
  negb (Ascii.eqb type GOPHER_INFO) && negb (Ascii.eqb type GOPHER_ERROR) &&
  negb (Ascii.eqb type "+"%char) && negb (Ascii.eqb type GOPHER_CSO) &&
  negb (Ascii.eqb type GOPHER_TELNET) && negb (Ascii.eqb type GOPHER_TN3270).

Record GopherPage := mkPage {
  page_host : str;
  page_selector : str;
  page_port : Z;
  items : list GopherItem;
  raw_text : str;
  is_menu : bool
}.

Record HistoryEntry := mkEntry {
  entry_host : str;
  entry_selector : str;
  entry_port : Z
}.

(* ------------------------------------------------------------------ *)
(** ** Utility functions *)

(** The characters of [" \t\r\n"]. *)
Definition trim_char (c : ascii) : bool :=
  Ascii.eqb c SP || Ascii.eqb c TAB || Ascii.eqb c CR || Ascii.eqb c LF.

Fixpoint drop_while {A : Type} (f : A -> bool) (l : list A) : list A :=
  match l with
  | [] => []
  | x :: l' => if f x then drop_while f l' else l
  end.

(** [trim]: from the first to the last character outside [" \t\r\n"]. *)
Definition trim (s : str) : str :=
  rev (drop_while trim_char (rev (drop_while trim_char s))).

(** The loop of [split], with its two local variables. *)
Fixpoint split_loop (s : str) (delim : ascii) (token : str)
    (result : list str) : list str :=
  match s with
  | [] => result ++ [token]
  | c :: rest =>
      if Ascii.eqb c delim
      then split_loop rest delim [] (result ++ [token])
      else split_loop rest delim (token ++ [c]) result
  end.

Definition split (s : str) (delim : ascii) : list str :=
  split_loop s delim [] [].

(** [isspace] in the C locale. *)
Definition isspace (c : ascii) : bool :=
  Ascii.eqb c SP || Ascii.eqb c TAB || Ascii.eqb c LF || Ascii.eqb c VT ||
  Ascii.eqb c FF || Ascii.eqb c CR.

Definition digit_value (c : ascii) : option Z :=
  let n := Z.of_nat (nat_of_ascii c) in
  if (48 <=? n) && (n <=? 57) then Some (n - 48) else None.

Fixpoint atoi_digits (s : str) (acc : Z) : Z :=
  match s with
  | [] => acc
  | c :: rest =>
      match digit_value c with
      | Some d => atoi_digits rest (10 * acc + d)
      | None => acc
      end
  end.

(** [atoi]: leading white space, an optional sign, then decimal digits.
    The C standard leaves the result open when the number does not fit an
    [int]; the C library of the target computes it with [strtol], which
    saturates, and that is what is written here. *)
Definition atoi (s : str) : Z :=
  let s := drop_while isspace s in
  let v :=
    match s with
    | c :: rest =>
        if Ascii.eqb c "-"%char then - atoi_digits rest 0
        else if Ascii.eqb c "+"%char then atoi_digits rest 0
        else atoi_digits s 0
    | [] => 0
    end in
  Z.max INT_MIN (Z.min INT_MAX v).

(* ------------------------------------------------------------------ *)
(** ** Gopher protocol parsing *)

Definition parse_gopher_line (line : str) : GopherItem :=
  match line with
  | [] => mkItem GOPHER_INFO [] [] [] (Some kDefaultGopherPort)
  | type :: rest =>
      let parts := split rest TAB in
      let display := nth 0 parts [] in
      let selector := nth 1 parts [] in
      let host := nth 2 parts [] in
      let port :=
        match nth_error parts 3 with
        | Some p =>
            let port_str := trim p in
            if empty port_str then kDefaultGopherPort
            else
              let n := atoi (c_str port_str) in
              if n <=? 0 then kDefaultGopherPort else n
        | None => kDefaultGopherPort
        end in
      mkItem type display selector host (Some port)
  end.

(** "Remove trailing CR if present". *)
Definition strip_cr (line : str) : str :=
  if negb (empty line) && Ascii.eqb (last line NUL) CR
  then removelast line
  else line.

Definition is_end_marker (line : str) : bool := str_eqb line (lit ".").

(** The [for] loop of [parse_gopher_menu] over the remaining characters,
    with the local [line] and the item vector; it returns both as they are
    when the loop is left (at the end of the input or by [break]). *)
Fixpoint menu_loop (response : str) (line : str) (its : list GopherItem)
    : str * list GopherItem :=
  match response with
  | [] => (line, its)
  | c :: rest =>
      if Ascii.eqb c LF then
        let line := strip_cr line in
        if is_end_marker line then (line, its)
        else
          let its := if negb (empty line)
                     then its ++ [parse_gopher_line line] else its in
          menu_loop rest [] its
      else menu_loop rest (line ++ [c]) its
  end.

Definition with_items (page : GopherPage) (its : list GopherItem)
    (raw : str) (menu : bool) : GopherPage :=
  mkPage (page_host page) (page_selector page) (page_port page) its raw menu.

(** "Handle last line if no newline at end". *)
Definition menu_last_line (line : str) (its : list GopherItem)
    : list GopherItem :=
  if negb (empty line) && negb (is_end_marker line)
  then its ++ [parse_gopher_line line] else its.

Definition parse_gopher_menu (response : str) (page : GopherPage)
    : GopherPage :=
  let '(line, its) := menu_loop response [] [] in
  with_items page (menu_last_line line its) (raw_text page) true.

(** The item [parse_text_file] builds for a line. *)
Definition info_item (line : str) : GopherItem :=
  mkItem GOPHER_INFO line [] [] None.

Fixpoint text_loop (response : str) (line : str) (its : list GopherItem)
    : str * list GopherItem :=
  match response with
  | [] => (line, its)
  | c :: rest =>
      if Ascii.eqb c LF then
        let line := strip_cr line in
        if is_end_marker line then (line, its)
        else text_loop rest [] (its ++ [info_item line])
      else text_loop rest (line ++ [c]) its
  end.

Definition text_last_line (line : str) (its : list GopherItem)
    : list GopherItem :=
  if negb (empty line) && negb (is_end_marker line)
  then its ++ [info_item line] else its.

Definition parse_text_file (response : str) (page : GopherPage)
    : GopherPage :=
  let '(line, its) := text_loop response [] [] in
  with_items page (text_last_line line its) response false.

(* ------------------------------------------------------------------ *)
(** ** Application state *)

(** The global variables the controller reads or writes. *)
Record State := mkState {
  current_page : GopherPage;
  history : list HistoryEntry;
  scroll_offset : Z;
  selected_index : Z;
  visible_lines : Z;
  is_loading : bool;
  status_message : str
}.

(** The values of the globals when the program starts. *)
Definition initial_state : State :=
  mkState (mkPage [] [] 0 [] [] false) [] 0 (-1) 0 false [].

Definition set_current_page (p : GopherPage) (st : State) : State :=
  mkState p (history st) (scroll_offset st) (selected_index st)
    (visible_lines st) (is_loading st) (status_message st).

Definition set_history (h : list HistoryEntry) (st : State) : State :=
  mkState (current_page st) h (scroll_offset st) (selected_index st)
    (visible_lines st) (is_loading st) (status_message st).

Definition set_scroll_offset (n : Z) (st : State) : State :=
  mkState (current_page st) (history st) n (selected_index st)
    (visible_lines st) (is_loading st) (status_message st).

Definition set_selected_index (n : Z) (st : State) : State :=
  mkState (current_page st) (history st) (scroll_offset st) n
    (visible_lines st) (is_loading st) (status_message st).

Definition set_visible_lines (n : Z) (st : State) : State :=
  mkState (current_page st) (history st) (scroll_offset st)
    (selected_index st) n (is_loading st) (status_message st).

Definition set_is_loading (b : bool) (st : State) : State :=
  mkState (current_page st) (history st) (scroll_offset st)
    (selected_index st) (visible_lines st) b (status_message st).

(** [set_status]: [strncpy] into the 256-byte buffer, then the final NUL. *)
Definition set_status (msg : str) (st : State) : State :=
  mkState (current_page st) (history st) (scroll_offset st)
    (selected_index st) (visible_lines st) (is_loading st)
    (firstn 255 (c_str msg)).

(** [current_page.host = h; current_page.selector = s; current_page.port = p] *)
Definition set_address (h s : str) (p : Z) (page : GopherPage) : GopherPage :=
  mkPage h s p (items page) (raw_text page) (is_menu page).

(* ------------------------------------------------------------------ *)
(** ** Network functions *)

(** What one connection attempt meets. For an established connection,
    [exchange request] is [None] when [send] fails and otherwise the buffers
    that the successive [recv] calls fill, in order; [recv] returns a value
    [<= 0] (close, error or timeout) after the last one, or at an empty
    buffer. *)
Inductive ConnectOutcome :=
| ResolveFails
| SocketFails
| ConnectFails
| Connected (exchange : str -> option (list str)).

Definition Network := str -> Z -> ConnectOutcome.

(** [sizeof(buffer) - 1], the most one [recv] call delivers. *)
Definition kRecvMax : Z := 4096 - 1.

Definition connect_to_host (net : Network) (hostname : str) (port : Z)
    (st : State) : option (str -> option (list str)) * State :=
  match net hostname port with
  | ResolveFails => (None, set_status (lit "DNS resolution failed") st)
  | SocketFails => (None, set_status (lit "Failed to create socket") st)
  | ConnectFails => (None, set_status (lit "Connection failed") st)
  | Connected exchange => (Some exchange, st)
  end.

(** The receive loop of [fetch_gopher]: [response += buffer] appends the
    buffer as a C string. *)
Fixpoint recv_loop (chunks : list str) (response : str) (st : State)
    : str * State :=
  match chunks with
  | [] => (response, st)
  | buffer :: rest =>
      if empty buffer then (response, st)
      else
        let response := response ++ c_str buffer in
        if size response >? kMaxResponseSize
        then (response, set_status (lit "Response too large") st)
        else recv_loop rest response st
  end.

Definition fetch_gopher (net : Network) (host selector : str) (port : Z)
    (st : State) : str * State :=
  match connect_to_host net host port st with
  | (None, st) => ([], st)
  | (Some exchange, st) =>
      let request := selector ++ [CR; LF] in
      match exchange request with
      | None => ([], set_status (lit "Failed to send request") st)
      | Some chunks => recv_loop chunks [] st
      end
  end.

(* ------------------------------------------------------------------ *)
(** ** Navigation *)

(** [while (history.size() > kMaxHistory) history.erase(history.begin());] *)
Fixpoint limit_history (h : list HistoryEntry) : list HistoryEntry :=
  match h with
  | [] => []
  | _ :: t => if size h >? kMaxHistory then limit_history t else h
  end.

(** [push_history] once the entry is built. *)
Definition push_entry (entry : HistoryEntry) (h : list HistoryEntry)
    : list HistoryEntry :=
  limit_history (h ++ [entry]).

Definition page_entry (page : GopherPage) : HistoryEntry :=
  mkEntry (page_host page) (page_selector page) (page_port page).

Definition push_history (st : State) : State :=
  set_history (push_entry (page_entry (current_page st)) (history st)) st.

(** "Find first selectable item": the scan from index [i], [selected]
    being the value [selected_index] keeps when the scan finds nothing. *)
Fixpoint find_selectable (its : list GopherItem) (i selected : Z) : Z :=
  match its with
  | [] => selected
  | it :: rest =>
      if is_selectable it then i else find_selectable rest (i + 1) selected
  end.

(** The tail shared by [go_back] and [navigate_to] after parsing. *)
Definition select_first (st : State) : State :=
  let st := set_scroll_offset 0 st in
  let st := set_selected_index (-1) st in
  set_selected_index
    (find_selectable (items (current_page st)) 0 (selected_index st)) st.

Definition go_back (net : Network) (st : State) : bool * State :=
  if empty (history st) then (false, st)
  else
    let entry := last (history st) (mkEntry [] [] 0) in
    let st := set_history (removelast (history st)) st in
    let st :=
      set_current_page
        (set_address (entry_host entry) (entry_selector entry)
           (entry_port entry) (current_page st)) st in
    let st := set_status (lit "Loading...") st in
    let st := set_is_loading true st in
    let '(response, st) :=
      fetch_gopher net (c_str (entry_host entry))
        (c_str (entry_selector entry)) (entry_port entry) st in
    let st := set_is_loading false st in
    if empty response then (false, set_status (lit "Failed to load page") st)
    else
      let st :=
        set_current_page (parse_gopher_menu response (current_page st)) st in
      let st := select_first st in
      (true, set_status [] st).

(** [host] and [selector] are the contents of the C strings passed in. *)
Definition navigate_to (net : Network) (host selector : str) (port : Z)
    (expected_type : ascii) (st : State) : State :=
  let st := if negb (empty (page_host (current_page st)))
            then push_history st else st in
  let st :=
    set_current_page (set_address host selector port (current_page st)) st in
  let st := set_status (lit "Connecting...") st in
  let st := set_is_loading true st in
  let '(response, st) := fetch_gopher net host selector port st in
  let st := set_is_loading false st in
  if empty response then set_status (lit "Failed to load page") st
  else
    let page :=
      if Ascii.eqb expected_type GOPHER_TEXT ||
         Ascii.eqb expected_type GOPHER_HTML
      then parse_text_file response (current_page st)
      else parse_gopher_menu response (current_page st) in
    let st := set_current_page page st in
    let st := select_first st in
    set_status [] st.

(** [pending_search_item.selector + "\t" + text] of
    [search_keyboard_handler]. *)
Definition search_selector (item : GopherItem) (text : str) : str :=
  item_selector item ++ [TAB] ++ text.

(* ------------------------------------------------------------------ *)
(** ** Display and input handling *)

(** Of [draw_screen], what it leaves in the globals that the controller
    reads: [visible_lines], computed from [ScreenHeight()]. [header_height]
    is the sum of the fixed heights drawn above the content. The drawing
    itself (text, scroll bar, page indicator) is outside this model, and
    with it the divisions made for the scroll bar and the page indicator;
    [draw_screen_divides] below says when their divisors are not 0. *)
Definition header_height : Z :=
  kScreenMargin + (kTitleFontSize + 2) + (kFontSize + 2) + 4.

Definition draw_screen (screen_height : Z) (st : State) : State :=
  let footer_height := 30 in
  set_visible_lines
    (Z.quot (screen_height - header_height - footer_height - kScreenMargin)
       kLineHeight) st.

(** The divisors of [draw_screen]: [items_count] for the thumb of the
    scroll bar, drawn when [items_count > visible_lines], and
    [visible_lines] for the page indicator, on every call. The result is
    [false] when one of them is 0; the division is then by zero, and the
    state [draw_screen] gives above says nothing about such a call. *)
Definition draw_screen_divides (screen_height : Z) (st : State) : bool :=
  let visible_lines := visible_lines (draw_screen screen_height st) in
  let items_count := size (items (current_page st)) in
  (if items_count >? visible_lines then negb (items_count =? 0) else true) &&
  negb (visible_lines =? 0).

(** [v[i]]: nothing outside the bounds. *)
Definition at_index {A : Type} (v : list A) (i : Z) : option A :=
  if i <? 0 then None else nth_error v (Z.to_nat i).

(** The result of a search loop: [Some (Some i)] when it selects [i],
    [Some None] when it ends without a selection, [None] when it has no
    result (a read outside the vector, or a loop that never ends). *)
Definition scan_result := option (option Z).

(** The [while] loop of [move_selection]; [fuel] bounds the iterations.
    One more than the number of items is always enough when [direction] is
    not 0 ([scan_direction_ends]); with [direction] 0 the loop never leaves
    an index whose item is not selectable, and the fuel runs out. *)
Fixpoint scan_direction (fuel : nat) (its : list GopherItem)
    (direction new_index : Z) : scan_result :=
  match fuel with
  | O => None
  | S fuel' =>
      if (0 <=? new_index) && (new_index <? size its) then
        match at_index its new_index with
        | None => None
        | Some it =>
            if is_selectable it then Some (Some new_index)
            else scan_direction fuel' its direction (new_index + direction)
        end
      else Some None
  end.

(** [for (int i = 0; i < selected_index; i++)]: [n] iterations remain. *)
Fixpoint wrap_from_start (n : nat) (its : list GopherItem) (i : Z)
    : scan_result :=
  match n with
  | O => Some None
  | S n' =>
      match at_index its i with
      | None => None
      | Some it =>
          if is_selectable it then Some (Some i)
          else wrap_from_start n' its (i + 1)
      end
  end.

(** [for (int i = items_count - 1; i > selected_index; i--)]. *)
Fixpoint wrap_from_end (n : nat) (its : list GopherItem) (i : Z)
    : scan_result :=
  match n with
  | O => Some None
  | S n' =>
      match at_index its i with
      | None => None
      | Some it =>
          if is_selectable it then Some (Some i)
          else wrap_from_end n' its (i - 1)
      end
  end.

(** [move_selection]; [screen_height] is what [ScreenHeight()] returns
    during the call. *)
Definition move_selection (screen_height : Z) (direction : Z) (st : State)
    : option State :=
  let its := items (current_page st) in
  let items_count := size its in
  if items_count =? 0 then Some st
  else
    let new_index := selected_index st + direction in
    match scan_direction (S (List.length its)) its direction new_index with
    | None => None
    | Some (Some i) =>
        let st := set_selected_index i st in
        let st :=
          if selected_index st <? scroll_offset st
          then set_scroll_offset (selected_index st) st
          else if selected_index st >=? scroll_offset st + visible_lines st
          then set_scroll_offset
                 (selected_index st - visible_lines st + 1) st
          else st in
        Some (draw_screen screen_height st)
    | Some None =>
        if direction >? 0 then
          match wrap_from_start (Z.to_nat (selected_index st)) its 0 with
          | None => None
          | Some (Some i) =>
              let st := set_selected_index i st in
              let st := set_scroll_offset 0 st in
              Some (draw_screen screen_height st)
          | Some None => Some st
          end
        else
          match wrap_from_end
                  (Z.to_nat (items_count - 1 - selected_index st)) its
                  (items_count - 1) with
          | None => None
          | Some (Some i) =>
              let st := set_selected_index i st in
              let st :=
                set_scroll_offset
                  (selected_index st - visible_lines st + 1) st in
              let st := if scroll_offset st <? 0
                        then set_scroll_offset 0 st else st in
              Some (draw_screen screen_height st)
          | Some None => Some st
          end
    end.

(** The operations of the controller, each with what the outside world
    contributes to it, and a run of several from a state. *)
Inductive Command :=
| Navigate (net : Network) (host selector : str) (port : Z)
    (expected_type : ascii)
| GoBack (net : Network)
| MoveSelection (screen_height : Z) (direction : Z).

Definition step (c : Command) (st : State) : option State :=
  match c with
  | Navigate net host selector port ty =>
      Some (navigate_to net host selector port ty st)
  | GoBack net => Some (snd (go_back net st))
  | MoveSelection h d => move_selection h d st
  end.

Fixpoint run (cs : list Command) (st : State) : option State :=
  match cs with
  | [] => Some st
  | c :: cs' =>
      match step c st with
      | Some st' => run cs' st'
      | None => None
      end
  end.

(* ------------------------------------------------------------------ *)
(** ** Reference definitions, written from the specification's wording

    These are not translations of code; the theorems below compare the
    code with them. *)

(** A response as its lines: the newline-terminated ones, in order, and
    what follows the last newline. *)
Definition prepend (line : str) (p : list str * str) : list str * str :=
  match p with
  | ([], pending) => ([], line ++ pending)
  | (l :: ls, pending) => ((line ++ l) :: ls, pending)
  end.

Fixpoint split_lines (response : str) : list str * str :=
  match response with
  | [] => ([], [])
  | c :: rest =>
      if Ascii.eqb c LF
      then ([] :: fst (split_lines rest), snd (split_lines rest))
      else prepend [c] (split_lines rest)
  end.

(** The part of a response after its last newline: the final line when it
    has no trailing newline, nothing otherwise. *)
Definition last_piece (response : str) : str := snd (split_lines response).

(** The lines of a response as the specification has them: the response
    split at its newlines, one trailing CR stripped from each line, the
    final line without a trailing newline taken like a terminated one. *)
Definition lines_of (p : list str * str) : list str :=
  map strip_cr (fst p ++ (if empty (snd p) then [] else [snd p])).

Definition response_lines (response : str) : list str :=
  lines_of (split_lines response).

(** The lines before the first line that is exactly ".". *)
Fixpoint before_end_marker (ls : list str) : list str :=
  match ls with
  | [] => []
  | l :: rest => if is_end_marker l then [] else l :: before_end_marker rest
  end.

Definition non_blank (l : str) : bool := negb (empty l).

(** What the specification says [parseMenu] and [parseText] produce. *)
Definition menu_items_spec (response : str) : list GopherItem :=
  map parse_gopher_line
    (filter non_blank (before_end_marker (response_lines response))).

Definition text_items_spec (response : str) : list GopherItem :=
  map info_item (before_end_marker (response_lines response)).

(* ------------------------------------------------------------------ *)
(** ** The lines as the code handles them

    Not the specification's wording but a description of the two parsers,
    proved of them in [menu_loop_lines] and [text_loop_lines]: the loop
    strips the CR of every newline-terminated line, the code after the
    loop takes the unterminated last line as it is. *)
Definition scanned_lines (p : list str * str) : list str :=
  map strip_cr (fst p) ++ (if empty (snd p) then [] else [snd p]).

Definition parsed_lines (response : str) : list str :=
  scanned_lines (split_lines response).

Definition menu_items_parsed (response : str) : list GopherItem :=
  map parse_gopher_line
    (filter non_blank (before_end_marker (parsed_lines response))).

Definition text_items_parsed (response : str) : list GopherItem :=
  map info_item (before_end_marker (parsed_lines response)).

(* ------------------------------------------------------------------ *)
(** ** Reference definitions for the controller *)

(** The response a fetch yields; it does not depend on the state the fetch
    starts in (see [fetch_gopher_response]). *)
Definition response_of (net : Network) (host selector : str) (port : Z)
    : str :=
  fst (fetch_gopher net host selector port initial_state).

(** [i] is the index of a selectable item of [its]. *)
Definition selectable_at (its : list GopherItem) (i : Z) : Prop :=
  exists it, at_index its i = Some it /\ is_selectable it = true.

(** The selection is none ([-1]) or points at a selectable item. *)
Definition selection_valid (st : State) : Prop :=
  selected_index st = -1 \/
  selectable_at (items (current_page st)) (selected_index st).

(** The selection a load leaves: none when the page has no selectable
    item, else the first selectable item. *)
Definition first_selected (its : list GopherItem) (s : Z) : Prop :=
  (s = -1 /\ forall k, ~ selectable_at its k) \/
  (selectable_at its s /\ forall k, k < s -> ~ selectable_at its k).





(** Two states that differ at most in the status message. *)
Definition same_but_status (a b : State) : Prop :=
  current_page a = current_page b /\ history a = history b /\
  scroll_offset a = scroll_offset b /\ selected_index a = selected_index b /\
  visible_lines a = visible_lines b /\ is_loading a = is_loading b.

(** The bytes a sequence of receive buffers carries. *)
Definition stream (chunks : list str) : str := List.concat chunks.

(** A buffer that one [recv] call can fill in a text exchange: between 1
    and [kRecvMax] bytes, none of them NUL. *)
Definition text_buffer (b : str) : Prop :=
  0 < size b <= kRecvMax /\ c_str b = b.

(* ------------------------------------------------------------------ *)
(** ** Concrete networks, pages and responses used as examples *)

(** A network on which no name resolves. *)
Definition unreachable_net : Network := fun _ _ => ResolveFails.

(** A network on which every connection succeeds and delivers [chunks]. *)
Definition serving_net (chunks : list str) : Network :=
  fun _ _ => Connected (fun _ => Some chunks).

(** The listing of the specification's example: an entry "A", the end
    marker, an entry "B". *)
Definition sample_listing : str :=
  lit "1A" ++ [TAB] ++ lit "foo" ++ [TAB] ++ lit "ex.com" ++ [TAB] ++
  lit "70" ++ [CR; LF] ++
  lit "." ++ [CR; LF] ++
  lit "1B" ++ [TAB] ++ lit "bar" ++ [TAB] ++ lit "ex.com" ++ [TAB] ++
  lit "70" ++ [CR; LF].

Definition item_A : GopherItem :=
  mkItem GOPHER_MENU (lit "A") (lit "foo") (lit "ex.com") (Some 70).

Definition entry_floodgap : HistoryEntry :=
  mkEntry (lit "gopher.floodgap.com") (lit "/") 70.

Definition entry_sdf : HistoryEntry := mkEntry (lit "sdf.org") (lit "/") 70.

(** A state after two navigations: a text page of two lines is shown, two
    addresses are in the history. *)
Definition visited_state : State :=
  mkState
    (mkPage (lit "gopherpedia.com") (lit "/about") 70
       [info_item (lit "About"); info_item []] (lit "About" ++ [LF; LF])
       false)
    [entry_floodgap; entry_sdf] 0 (-1) 40 false [].

(** Two entries around a blank line. *)
Definition listing_with_blank : str :=
  lit "1A" ++ [TAB] ++ lit "foo" ++ [CR; LF] ++
  [CR; LF] ++
  lit "0B" ++ [TAB] ++ lit "bar" ++ [CR; LF].

(** A listing that ends in a lone CR with no newline after it, a listing
    with an unterminated last entry, and the specification's listing cut
    off right after the CR of its end-marker line. *)
Definition listing_blank_tail : str :=
  lit "1A" ++ [TAB] ++ lit "foo" ++ [CR; LF] ++ [CR].

Definition listing_open_tail : str :=
  listing_with_blank ++ lit "1C" ++ [TAB] ++ lit "baz".

Definition listing_marker_tail : str :=
  lit "1A" ++ [TAB] ++ lit "foo" ++ [TAB] ++ lit "ex.com" ++ [TAB] ++
  lit "70" ++ [CR; LF] ++
  lit "." ++ [CR].

(** The end-marker line as it arrives: a single ".", an optional CR, the
    newline. *)
Definition end_line (crlf : bool) : str :=
  lit "." ++ (if crlf then [CR] else []) ++ [LF].

(** A server that keeps sending: 200 receive buffers, each filled to the
    last of its 4095 bytes. *)
Definition full_buffer : str := repeat "a"%char 4095.

Definition flood_chunks : list str := repeat full_buffer 200.

(** The same amount of NUL bytes. *)
Definition nul_buffer : str := repeat NUL 4095.

Definition nul_chunks : list str := repeat nul_buffer 200.

(** The page of the specification's selection example: an info line, the
    entry "A", an info line, the entry "B"; "A" is selected. *)
Definition item_B : GopherItem :=
  mkItem GOPHER_TEXT (lit "B") (lit "bar") (lit "ex.com") (Some 70).

Definition selection_example : State :=
  mkState
    (mkPage (lit "ex.com") (lit "/") 70
       [parse_gopher_line (lit "iwelcome"); item_A;
        parse_gopher_line (lit "imore"); item_B] [] true)
    [] 0 1 40 false [].

(** A page of info lines only. *)
Definition info_only_example : State :=
  mkState
    (mkPage (lit "ex.com") (lit "/") 70
       [parse_gopher_line (lit "ione"); parse_gopher_line (lit "itwo")] []
       true)
    [] 0 (-1) 40 false [].

(** [n] distinct addresses, numbered by their port from [from] on. *)
Definition numbered_entries (from n : nat) : list HistoryEntry :=
  map (fun k => mkEntry (lit "ex.com") (lit "/") (Z.of_nat k)) (seq from n).

(* ------------------------------------------------------------------ *)
(** ** Further reference definitions: joining and well-formed lines *)

(** The parts of a split written back with the delimiter between them. *)
Fixpoint join (delim : ascii) (parts : list str) : str :=
  match parts with
  | [] => []
  | [p] => p
  | p :: rest => p ++ delim :: join delim rest
  end.

(** Lines written out, each followed by a newline, with a CR before it
    when [crlf] is set. *)
Definition line_ending (crlf : bool) : str :=
  if crlf then [CR; LF] else [LF].

Definition write_lines (crlf : bool) (ls : list str) : str :=
  List.concat (map (fun l => l ++ line_ending crlf) ls).

(** A string of characters of [" \t\r\n"] only. *)
Definition all_trim_chars (s : str) : Prop := forallb trim_char s = true.

(** The first and the last character of a string, when it has one. *)
Definition first_char (s : str) : option ascii :=
  match s with [] => None | c :: _ => Some c end.

Definition last_char (s : str) : option ascii := first_char (rev s).

(** The character of a decimal digit, and the number a sequence of digits
    denotes. *)
Definition digit_char (d : Z) : ascii := ascii_of_nat (Z.to_nat (48 + d)).

Definition decimal (ds : list Z) : Z := fold_left (fun a d => 10 * a + d) ds 0.

Definition is_digit (d : Z) : Prop := 0 <= d <= 9.

(** A field that holds neither a tab nor a newline. *)
Definition clean_field (f : str) : Prop := ~ In TAB f /\ ~ In LF f.

(** What holds of the controller's state whatever happened before: the
    history is within its bound and holds only addresses with a host, the
    scroll offset is not negative, and no load is marked as running. *)
Definition controller_ok (st : State) : Prop :=
  size (history st) <= kMaxHistory /\
  Forall (fun e => entry_host e <> []) (history st) /\
  0 <= scroll_offset st /\
  is_loading st = false.



(* ------------------------------------------------------------------ *)
(** ** The application around the controller

    The rest of the globals, the calls into the device library that are
    not drawing ([Message], [OpenKeyboard], [OpenMenu], [CloseApp]) as a log
    of calls, and the handlers. The names of keys, events and icons come
    from the device header; they are enumerated here. What the outside
    contributes to a handler is its [Env]: the network, the height of the
    screen and the clock. A handler has no result ([None]) where the code
    reads the port of an item that was never given one. *)

Inductive Icon := ICON_WARNING | ICON_INFORMATION.

Inductive UiCall :=
| UiMessage (icon : Icon) (title text : str) (timeout : Z)
| UiOpenKeyboard (title : str) (maxlen : Z)
| UiOpenMenu (texts : list str)
| UiCloseApp.

Inductive Key :=
| KEY_LEFT | KEY_PREV | KEY_RIGHT | KEY_NEXT | KEY_MENU | KEY_BACK
| KEY_OTHER.

Inductive Event :=
| EVT_INIT
| EVT_SHOW
| EVT_KEYPRESS (key : Key)
| EVT_POINTERDOWN (x y : Z)
| EVT_POINTERMOVE (x y : Z)
| EVT_POINTERUP (x y : Z)
| EVT_EXIT
| EVT_OTHER.

Record Env := mkEnv {
  env_net : Network;
  env_screen_height : Z;
  env_time_ms : Z
}.

Definition kDoubleTapTime : Z := 500.
Definition kDefaultHost : str := lit "gopher.floodgap.com".
Definition kDefaultSelector : str := lit "/".

(** The globals outside the controller; [nav] holds the controller's. The
    global [header_height] is [layout_header_height]. The buffer
    [search_query] belongs to the on-screen keyboard once it is open and is
    read nowhere else; it is not kept here. *)
Record App := mkApp {
  nav : State;
  layout_header_height : Z;
  content_area_top : Z;
  content_area_bottom : Z;
  pending_search_item : GopherItem;
  search_pending : bool;
  initial_load_done : bool;
  last_tap_index : Z;
  last_tap_time : Z;
  touch_start_y : Z;
  touch_is_drag : bool
}.

(** Statics start zeroed, but for the initialised ones. *)
Definition initial_app : App :=
  mkApp initial_state 0 0 0 (mkItem NUL [] [] [] (Some 0)) false false
    (-1) 0 0 false.

Definition set_nav (st : State) (a : App) : App :=
  mkApp st (layout_header_height a) (content_area_top a)
    (content_area_bottom a) (pending_search_item a) (search_pending a)
    (initial_load_done a) (last_tap_index a) (last_tap_time a)
    (touch_start_y a) (touch_is_drag a).

Definition set_layout (hh top bottom : Z) (a : App) : App :=
  mkApp (nav a) hh top bottom (pending_search_item a) (search_pending a)
    (initial_load_done a) (last_tap_index a) (last_tap_time a)
    (touch_start_y a) (touch_is_drag a).

Definition set_search (item : GopherItem) (pending : bool) (a : App) : App :=
  mkApp (nav a) (layout_header_height a) (content_area_top a)
    (content_area_bottom a) item pending (initial_load_done a)
    (last_tap_index a) (last_tap_time a) (touch_start_y a) (touch_is_drag a).

Definition set_search_pending (pending : bool) (a : App) : App :=
  set_search (pending_search_item a) pending a.

Definition set_initial_load_done (b : bool) (a : App) : App :=
  mkApp (nav a) (layout_header_height a) (content_area_top a)
    (content_area_bottom a) (pending_search_item a) (search_pending a) b
    (last_tap_index a) (last_tap_time a) (touch_start_y a) (touch_is_drag a).

Definition set_last_tap (index time : Z) (a : App) : App :=
  mkApp (nav a) (layout_header_height a) (content_area_top a)
    (content_area_bottom a) (pending_search_item a) (search_pending a)
    (initial_load_done a) index time (touch_start_y a) (touch_is_drag a).

Definition set_touch (start_y : Z) (drag : bool) (a : App) : App :=
  mkApp (nav a) (layout_header_height a) (content_area_top a)
    (content_area_bottom a) (pending_search_item a) (search_pending a)
    (initial_load_done a) (last_tap_index a) (last_tap_time a) start_y drag.

(** [draw_screen] on all the globals it writes: the layout, and through
    [draw_screen] above the number of visible lines. *)
Definition draw_screen_app (screen_height : Z) (a : App) : App :=
  let st := draw_screen screen_height (nav a) in
  set_layout header_height header_height
    (header_height + visible_lines st * kLineHeight) (set_nav st a).

Definition initiate_search (item : GopherItem) (a : App)
    : App * list UiCall :=
  let title := firstn 127 (lit "Search: " ++ c_str (item_display item)) in
  (set_search item true a, [UiOpenKeyboard title (256 - 1)]).

(** [search_keyboard_handler]; [text] is [None] for a null pointer and
    the content of the C string otherwise. *)
Definition search_keyboard_handler (env : Env) (text : option str) (a : App)
    : option App :=
  match text with
  | Some (c :: t) =>
      let item := pending_search_item a in
      let search_selector := item_selector item ++ [TAB] ++ (c :: t) in
      match item_port item with
      | None => None
      | Some port =>
          let st :=
            navigate_to (env_net env) (c_str (item_host item))
              (c_str search_selector) port GOPHER_MENU (nav a) in
          let a := set_nav st a in
          let a := set_search_pending false a in
          Some (draw_screen_app (env_screen_height env) a)
      end
  | _ =>
      let a := set_search_pending false a in
      Some (draw_screen_app (env_screen_height env) a)
  end.

(** The item kinds [follow_link] refuses to display. *)
Definition is_binary_kind (type : ascii) : bool :=
  Ascii.eqb type GOPHER_BINARY || Ascii.eqb type GOPHER_IMAGE ||
  Ascii.eqb type GOPHER_GIF || Ascii.eqb type GOPHER_SOUND ||
  Ascii.eqb type GOPHER_DOS || Ascii.eqb type GOPHER_BINHEX ||
  Ascii.eqb type GOPHER_UUENCODE.

Definition navigate_to_item (env : Env) (item : GopherItem)
    (expected_type : ascii) (a : App) : option (App * list UiCall) :=
  match item_port item with
  | None => None
  | Some port =>
      Some (set_nav
              (navigate_to (env_net env) (c_str (item_host item))
                 (c_str (item_selector item)) port expected_type (nav a)) a,
            [])
  end.

Definition follow_link (env : Env) (a : App) : option (App * list UiCall) :=
  let st := nav a in
  if (selected_index st <? 0) ||
     (selected_index st >=? size (items (current_page st)))
  then Some (a, [])
  else
    match at_index (items (current_page st)) (selected_index st) with
    | None => None
    | Some item =>
        if negb (is_selectable item) then Some (a, [])
        else
          let type := item_type item in
          if Ascii.eqb type GOPHER_MENU
          then navigate_to_item env item GOPHER_MENU a
          else if Ascii.eqb type GOPHER_SEARCH
          then Some (initiate_search item a)
          else if Ascii.eqb type GOPHER_TEXT || Ascii.eqb type GOPHER_HTML
          then navigate_to_item env item GOPHER_TEXT a
          else if is_binary_kind type
          then Some (a, [UiMessage ICON_WARNING (lit "Gopher Browser")
                           (lit "Binary files cannot be displayed") 2000])
          else navigate_to_item env item GOPHER_MENU a
    end.

(** The clamp of the scroll offset shared by [scroll_page] and the swipe
    gesture. *)
Definition max_scroll (st : State) : Z :=
  let max_scroll := size (items (current_page st)) - visible_lines st in
  if max_scroll <? 0 then 0 else max_scroll.

Definition scroll_by (lines : Z) (st : State) : State :=
  let max_scroll := max_scroll st in
  let st := set_scroll_offset (scroll_offset st + lines) st in
  let st := if scroll_offset st <? 0 then set_scroll_offset 0 st else st in
  if scroll_offset st >? max_scroll then set_scroll_offset max_scroll st
  else st.


Definition bookmark_texts : list str :=
  [lit "Floodgap Gopher"; lit "SDF Public Access"; lit "Gopherpedia";
   lit "Veronica-2 Search"].

Definition show_bookmarks_menu (a : App) : App * list UiCall :=
  (a, [UiOpenMenu bookmark_texts]).

(** The address of a bookmark; [None] for an index that has none. *)
Definition bookmark (index : Z) : option (str * str * Z) :=
  if index =? 0 then Some (lit "gopher.floodgap.com", lit "/", 70)
  else if index =? 1 then Some (lit "sdf.org", lit "/", 70)
  else if index =? 2 then Some (lit "gopherpedia.com", lit "/", 70)
  else if index =? 3 then Some (lit "gopher.floodgap.com", lit "/v2/vs", 70)
  else None.

Definition bookmark_menu_handler (env : Env) (index : Z) (a : App) : App :=
  let a :=
    match bookmark index with
    | Some (host, selector, port) =>
        set_nav
          (navigate_to (env_net env) host selector port GOPHER_MENU (nav a)) a
    | None => a
    end in
  draw_screen_app (env_screen_height env) a.

Definition handle_key (env : Env) (key : Key) (a : App)
    : option (App * list UiCall) :=
  match key with
  | KEY_LEFT | KEY_PREV =>
      let '(ok, st) := go_back (env_net env) (nav a) in
      let ui :=
        if negb ok
        then [UiMessage ICON_INFORMATION (lit "Gopher Browser")
                (lit "No more history") 1500]
        else [] in
      Some (draw_screen_app (env_screen_height env) (set_nav st a), ui)
  | KEY_RIGHT | KEY_NEXT =>
      match follow_link env a with
      | None => None
      | Some (a, ui) =>
          Some (if negb (search_pending a)
                then draw_screen_app (env_screen_height env) a else a, ui)
      end
  | KEY_MENU => Some (show_bookmarks_menu a)
  | KEY_BACK => Some (a, [UiCloseApp])
  | KEY_OTHER => Some (a, [])
  end.

(** The tap branch of [EVT_POINTERUP]. *)
Definition handle_tap (env : Env) (touch_y : Z) (a : App)
    : option (App * list UiCall) :=
  let current_time := env_time_ms env in
  if touch_y <? layout_header_height a then Some (show_bookmarks_menu a)
  else if (touch_y >=? content_area_top a) &&
          (touch_y <? content_area_bottom a)
  then
    let st := nav a in
    let line_index :=
      scroll_offset st + Z.quot (touch_y - content_area_top a) kLineHeight in
    if (line_index >=? 0) && (line_index <? size (items (current_page st)))
    then
      match at_index (items (current_page st)) line_index with
      | None => None
      | Some item =>
          if is_selectable item then
            if (line_index =? last_tap_index a) &&
               (current_time - last_tap_time a <? kDoubleTapTime)
            then
              let a := set_nav (set_selected_index line_index st) a in
              match follow_link env a with
              | None => None
              | Some (a, ui) =>
                  let a :=
                    if negb (search_pending a)
                    then draw_screen_app (env_screen_height env) a else a in
                  Some (set_last_tap (-1) 0 a, ui)
              end
            else
              let a := set_nav (set_selected_index line_index st) a in
              let a := set_last_tap line_index current_time a in
              Some (draw_screen_app (env_screen_height env) a, [])
          else Some (a, [])
      end
    else Some (a, [])
  else Some (a, []).

(** [main_handler]: the value it returns, the globals, the calls logged.
    [EVT_INIT] only opens the font and clears the screen. *)
Definition main_handler (env : Env) (event : Event) (a : App)
    : option (Z * App * list UiCall) :=
  match event with
  | EVT_INIT => Some (0, a, [])
  | EVT_SHOW =>
      let a :=
        if negb (initial_load_done a)
        then
          set_initial_load_done true
            (set_nav
               (navigate_to (env_net env) kDefaultHost kDefaultSelector
                  kDefaultGopherPort GOPHER_MENU (nav a)) a)
        else a in
      Some (0, draw_screen_app (env_screen_height env) a, [])
  | EVT_KEYPRESS key =>
      match handle_key env key a with
      | None => None
      | Some (a, ui) => Some (1, a, ui)
      end
  | EVT_POINTERDOWN _ y => Some (1, set_touch y false a, [])
  | EVT_POINTERMOVE _ y =>
      let delta_y := y - touch_start_y a in
      let a :=
        if (delta_y >? 20) || (delta_y <? -20)
        then set_touch (touch_start_y a) true a else a in
      Some (1, a, [])
  | EVT_POINTERUP _ touch_y =>
      let delta_y := touch_y - touch_start_y a in
      if touch_is_drag a then
        let swipe_lines := Z.quot (- delta_y) kLineHeight in
        let a :=
          if negb (swipe_lines =? 0)
          then draw_screen_app (env_screen_height env)
                 (set_nav (scroll_by swipe_lines (nav a)) a)
          else a in
        Some (1, a, [])
      else
        match handle_tap env touch_y a with
        | None => None
        | Some (a, ui) => Some (1, a, ui)
        end
  | EVT_EXIT =>
      let st := nav a in
      let st := set_history [] st in
      let st :=
        set_current_page
          (with_items (current_page st) [] (raw_text (current_page st))
             (is_menu (current_page st))) st in
      Some (0, set_nav st a, [])
  | EVT_OTHER => Some (0, a, [])
  end.

(** What reaches the application: an event, the text the on-screen
    keyboard hands back, or the entry chosen in the bookmark menu. *)
Inductive Input :=
| InEvent (event : Event)
| InKeyboard (text : option str)
| InMenu (index : Z).

Definition app_step (env : Env) (input : Input) (a : App) : option App :=
  match input with
  | InEvent event =>
      match main_handler env event a with
      | None => None
      | Some (_, a, _) => Some a
      end
  | InKeyboard text => search_keyboard_handler env text a
  | InMenu index => Some (bookmark_menu_handler env index a)
  end.

Fixpoint app_run (inputs : list (Env * Input)) (a : App) : option App :=
  match inputs with
  | [] => Some a
  | (env, input) :: rest =>
      match app_step env input a with
      | Some a' => app_run rest a'
      | None => None
      end
  end.

(** Every selectable item of the page has a port, and so has the item kept
    for the search. *)
Definition ports_defined (a : App) : Prop :=
  Forall (fun it => is_selectable it = true -> item_port it <> None)
    (items (current_page (nav a))) /\
  item_port (pending_search_item a) <> None.

Definition app_ok (a : App) : Prop :=
  selection_valid (nav a) /\ controller_ok (nav a) /\ ports_defined a.

(** A page whose selected entry is a search item, and one whose selected
    entry is an image. *)
Definition item_search : GopherItem :=
  mkItem GOPHER_SEARCH (lit "Search Veronica") (lit "/v2/vs")
    (lit "gopher.floodgap.com") (Some 70).

Definition item_image : GopherItem :=
  mkItem GOPHER_IMAGE (lit "A picture") (lit "/pic.png") (lit "ex.com")
    (Some 70).

Definition search_example : App :=
  mkApp
    (mkState
       (mkPage (lit "ex.com") (lit "/") 70 [item_search; item_image] [] true)
       [] 0 0 40 false [])
    43 43 763 (mkItem NUL [] [] [] (Some 0)) false true (-1) 0 0 false.

Definition example_env (net : Network) : Env := mkEnv net 800 1000.

Definition warning_binary : UiCall :=
  UiMessage ICON_WARNING (lit "Gopher Browser")
    (lit "Binary files cannot be displayed") 2000.

Definition message_no_history : UiCall :=
  UiMessage ICON_INFORMATION (lit "Gopher Browser") (lit "No more history")
    1500.

(** The controller's part of [app_ok]. *)
Definition state_ok (st : State) : Prop :=
  selection_valid st /\ controller_ok st /\
  Forall (fun it => is_selectable it = true -> item_port it <> None)
    (items (current_page st)).




(* ================================================================== *)
(** * Properties *)

(** ** Strings and small facts *)

Lemma empty_true {A : Type} (s : list A) : empty s = true <-> s = [].
Proof. destruct s; simpl; split; congruence. Qed.

Lemma empty_false {A : Type} (s : list A) : empty s = false <-> s <> [].
Proof. destruct s; simpl; split; congruence. Qed.

Lemma str_eqb_eq (a b : str) : str_eqb a b = true <-> a = b.
Proof.
  revert b; induction a as [|x a IH]; intros [|y b]; simpl;
    try (split; congruence).
  rewrite andb_true_iff, Ascii.eqb_eq, IH. split.
  - intros [-> ->]; reflexivity.
  - intros H; inversion H; auto.
Qed.

(** The end-marker test is equality with the one-character string ".". *)
Lemma is_end_marker_iff (line : str) :
  is_end_marker line = true <-> line = lit ".".
Proof. apply str_eqb_eq. Qed.

Lemma size_app {A : Type} (a b : list A) : size (a ++ b) = size a + size b.
Proof. unfold size. rewrite length_app. lia. Qed.

Lemma size_nonneg {A : Type} (a : list A) : 0 <= size a.
Proof. unfold size. lia. Qed.

Lemma size_cons {A : Type} (x : A) (a : list A) : size (x :: a) = size a + 1.
Proof. unfold size. simpl List.length. lia. Qed.

(* ------------------------------------------------------------------ *)
(** ** History *)

(** The last [k] elements of a list. *)
Lemma skipn_last_app {A : Type} (k : nat) (a b : list A) :
  skipn (List.length (skipn (List.length a - k) a ++ b) - k)
    (skipn (List.length a - k) a ++ b) =
  skipn (List.length (a ++ b) - k) (a ++ b).
Proof.
  set (m := (List.length a - k)%nat).
  assert (Hf : List.length (firstn m a) = m)
    by (rewrite length_firstn; unfold m; lia).
  assert (Hs : List.length (skipn m a) = (List.length a - m)%nat)
    by apply length_skipn.
  assert (Hab : a ++ b = firstn m a ++ (skipn m a ++ b))
    by (rewrite app_assoc, firstn_skipn; reflexivity).
  set (X := skipn m a ++ b) in *.
  assert (HX : List.length X = (List.length a - m + List.length b)%nat)
    by (unfold X; rewrite length_app, Hs; reflexivity).
  rewrite Hab at 2. rewrite skipn_app.
  rewrite (skipn_all2 (firstn m a))
    by (rewrite Hf, length_app; unfold m; lia).
  cbn [app]. f_equal. rewrite Hf, HX, length_app. unfold m. lia.
Qed.

Lemma limit_history_skipn (h : list HistoryEntry) :
  limit_history h = skipn (List.length h - 50) h.
Proof.
  induction h as [|x t IH]; [reflexivity|].
  cbn [limit_history]. unfold kMaxHistory.
  destruct (size (x :: t) >? 50) eqn:E.
  - rewrite IH. rewrite size_cons in E. unfold size in E.
    assert (Hl : (50 <= List.length t)%nat) by lia.
    replace (List.length (x :: t) - 50)%nat
      with (S (List.length t - 50)) by (simpl; lia).
    reflexivity.
  - rewrite size_cons in E. unfold size in E.
    replace (List.length (x :: t) - 50)%nat with 0%nat by (simpl; lia).
    reflexivity.
Qed.

Lemma push_entry_skipn (e : HistoryEntry) (h : list HistoryEntry) :
  push_entry e h = skipn (List.length (h ++ [e]) - 50) (h ++ [e]).
Proof. unfold push_entry. apply limit_history_skipn. Qed.

Lemma push_entry_size (e : HistoryEntry) (h : list HistoryEntry) :
  size (push_entry e h) = Z.min (size h + 1) kMaxHistory.
Proof.
  rewrite push_entry_skipn. unfold size, kMaxHistory.
  rewrite length_skipn, length_app. simpl. lia.
Qed.

(** The entry just pushed is the last one, whatever was evicted. *)
Lemma push_entry_last (e : HistoryEntry) (h : list HistoryEntry) :
  exists h', push_entry e h = h' ++ [e].
Proof.
  exists (skipn (List.length h - 49) h).
  rewrite push_entry_skipn, skipn_app, length_app. cbn [List.length].
  replace (List.length h + 1 - 50)%nat with (List.length h - 49)%nat by lia.
  replace (List.length h - 49 - List.length h)%nat with 0%nat by lia.
  reflexivity.
Qed.

Lemma push_entry_below (e : HistoryEntry) (h : list HistoryEntry) :
  size h < kMaxHistory -> push_entry e h = h ++ [e].
Proof.
  unfold size, kMaxHistory. intros H. rewrite push_entry_skipn, length_app.
  cbn [List.length].
  replace (List.length h + 1 - 50)%nat with 0%nat by lia. reflexivity.
Qed.

Lemma push_entry_full (e : HistoryEntry) (h : list HistoryEntry) :
  size h = kMaxHistory -> push_entry e h = tl h ++ [e].
Proof.
  unfold size, kMaxHistory. intros H. rewrite push_entry_skipn, length_app.
  cbn [List.length].
  replace (List.length h + 1 - 50)%nat with 1%nat by lia.
  destruct h; [simpl in H; lia|]. reflexivity.
Qed.

(** Pushing a sequence of entries keeps the last 50 of all of them. *)
Lemma push_all_skipn (es h : list HistoryEntry) :
  fold_left (fun h e => push_entry e h) es (skipn (List.length h - 50) h) =
  skipn (List.length (h ++ es) - 50) (h ++ es).
Proof.
  revert h. induction es as [|e es IH]; intros h.
  - cbn [fold_left]. rewrite app_nil_r. reflexivity.
  - cbn [fold_left]. rewrite push_entry_skipn, skipn_last_app, IH.
    rewrite <- app_assoc. reflexivity.
Qed.

Lemma push_all_from_empty (es : list HistoryEntry) :
  fold_left (fun h e => push_entry e h) es [] =
  skipn (List.length es - 50) es.
Proof. exact (push_all_skipn es []). Qed.

(** C3. The history never holds more than [kMaxHistory] = 50 entries:
    whatever the history was, after a push it has at most 50 entries and the
    pushed entry is its last one (a push always goes through, whatever the
    depth); pushing any sequence of entries from the empty history keeps
    exactly the last 50 of them in order; and a push onto a history of 50
    drops the oldest (first) entry and leaves exactly 50, so 51 pushes from
    empty lose the first one. *)
Theorem history_bounded_fifo :
  (forall e h,
      size (push_entry e h) <= kMaxHistory /\
      exists h', push_entry e h = h' ++ [e]) /\
  (forall st,
      size (history (push_history st)) <= kMaxHistory /\
      last (history (push_history st)) (mkEntry [] [] 0) =
        page_entry (current_page st)) /\
  (forall es,
      let h := fold_left (fun h e => push_entry e h) es [] in
      size h <= kMaxHistory /\ h = skipn (List.length es - 50) es) /\
  (forall e h,
      size h = kMaxHistory ->
      push_entry e h = tl h ++ [e] /\ size (push_entry e h) = kMaxHistory) /\
  (forall e1 es,
      List.length es = 50%nat ->
      fold_left (fun h e => push_entry e h) (e1 :: es) [] = es).
Proof.
  repeat split.
  - rewrite push_entry_size. lia.
  - apply push_entry_last.
  - cbn. rewrite push_entry_size. lia.
  - cbn. destruct (push_entry_last (page_entry (current_page st)) (history st))
      as [h' ->]. apply last_last.
  - rewrite push_all_from_empty. unfold size, kMaxHistory.
    rewrite length_skipn. lia.
  - apply push_all_from_empty.
  - apply push_entry_full; assumption.
  - rewrite push_entry_size. lia.
  - intros e1 es Hes.
    rewrite push_all_from_empty. cbn [List.length]. rewrite Hes.
    reflexivity.
Qed.

Lemma history_bounded_fifo_witness :
  List.length (numbered_entries 2 50) = 50%nat /\
  fold_left (fun h e => push_entry e h) (numbered_entries 1 51) [] =
    numbered_entries 2 50 /\
  size (push_entry (mkEntry (lit "ex.com") (lit "/") 51)
          (numbered_entries 1 50)) = kMaxHistory.
Proof.
  destruct history_bounded_fifo as (_ & _ & _ & Hfull & H51).
  split; [reflexivity|]. split.
  - apply (H51 (mkEntry (lit "ex.com") (lit "/") 1) (numbered_entries 2 50)).
    reflexivity.
  - apply (Hfull (mkEntry (lit "ex.com") (lit "/") 51)
             (numbered_entries 1 50)).
    reflexivity.
Defined.

(* ------------------------------------------------------------------ *)
(** ** Transport: what a fetch leaves untouched *)

Lemma same_but_status_refl (st : State) : same_but_status st st.
Proof. repeat split. Qed.

Lemma same_but_status_set (msg : str) (st : State) :
  same_but_status st (set_status msg st).
Proof. repeat split. Qed.

Lemma recv_loop_frame (chunks : list str) (response : str) (st : State) :
  same_but_status st (snd (recv_loop chunks response st)).
Proof.
  revert response. induction chunks as [|b rest IH]; intros response;
    cbn [recv_loop].
  - apply same_but_status_refl.
  - destruct (empty b); [apply same_but_status_refl|].
    destruct (size (response ++ c_str b) >? kMaxResponseSize).
    + apply same_but_status_set.
    + apply IH.
Qed.

Lemma recv_loop_response (chunks : list str) (response : str)
    (st st' : State) :
  fst (recv_loop chunks response st) = fst (recv_loop chunks response st').
Proof.
  revert response. induction chunks as [|b rest IH]; intros response;
    cbn [recv_loop]; [reflexivity|].
  destruct (empty b); [reflexivity|].
  destruct (size (response ++ c_str b) >? kMaxResponseSize);
    [reflexivity|apply IH].
Qed.

Lemma fetch_gopher_frame (net : Network) (host selector : str) (port : Z)
    (st : State) :
  same_but_status st (snd (fetch_gopher net host selector port st)).
Proof.
  unfold fetch_gopher, connect_to_host.
  destruct (net host port) as [| | |exchange];
    try apply same_but_status_set.
  destruct (exchange (selector ++ [CR; LF])) as [chunks|].
  - apply recv_loop_frame.
  - apply same_but_status_set.
Qed.

Lemma fetch_gopher_response (net : Network) (host selector : str) (port : Z)
    (st : State) :
  fst (fetch_gopher net host selector port st) =
  response_of net host selector port.
Proof.
  unfold response_of, fetch_gopher, connect_to_host.
  destruct (net host port) as [| | |exchange]; try reflexivity.
  destruct (exchange (selector ++ [CR; LF])) as [chunks|];
    [apply recv_loop_response|reflexivity].
Qed.

(** A fetch seen from its caller: the response, and a state that differs
    from the one before at most in the status message. *)
Lemma fetch_gopher_inv (net : Network) (host selector : str) (port : Z)
    (st : State) :
  exists st',
    fetch_gopher net host selector port st =
      (response_of net host selector port, st') /\
    same_but_status st st'.
Proof.
  exists (snd (fetch_gopher net host selector port st)). split.
  - rewrite <- (fetch_gopher_response net host selector port st).
    apply surjective_pairing.
  - apply fetch_gopher_frame.
Qed.

(** Replaces the fetch in the goal by its response and a state [st1] that
    agrees with the state before the fetch (hypothesis [H]). *)
Ltac fetch_inv st1 H :=
  match goal with
  | |- context [fetch_gopher ?net ?a ?b ?c ?s] =>
      destruct (fetch_gopher_inv net a b c s) as (st1 & -> & H)
  end.

(* ------------------------------------------------------------------ *)
(** ** Navigation: failed loads *)

(** C1. When the fetch of [navigate_to] returns an empty response, the
    status message is "Failed to load page" and the call returns; the current
    page's host, selector and port are the requested destination, and the
    item list, raw text, menu flag and selection index (and the scroll
    offset) are what they were before the call. *)
Theorem navigate_to_empty_fetch (net : Network) (host selector : str)
    (port : Z) (expected_type : ascii) (st : State) :
  response_of net host selector port = [] ->
  let st' := navigate_to net host selector port expected_type st in
  status_message st' = lit "Failed to load page" /\
  page_host (current_page st') = host /\
  page_selector (current_page st') = selector /\
  page_port (current_page st') = port /\
  items (current_page st') = items (current_page st) /\
  raw_text (current_page st') = raw_text (current_page st) /\
  is_menu (current_page st') = is_menu (current_page st) /\
  selected_index st' = selected_index st /\
  scroll_offset st' = scroll_offset st /\
  is_loading st' = false.
Proof.
  intros Hr st'. subst st'. unfold navigate_to.
  fetch_inv st1 Hsame. destruct Hsame as (Hp & Hh & Hs & Hi & Hv & Hl).
  rewrite Hr. cbn [empty]. cbn in Hp, Hs, Hi |- *.
  rewrite <- Hp, <- Hi, <- Hs.
  destruct (empty (page_host (current_page st))); cbn; repeat split.
Qed.

Lemma navigate_to_empty_fetch_witness :
  let st' :=
    navigate_to unreachable_net (lit "gopher.floodgap.com") (lit "/") 70
      GOPHER_MENU initial_state in
  status_message st' = lit "Failed to load page" /\
  page_host (current_page st') = lit "gopher.floodgap.com" /\
  page_selector (current_page st') = lit "/" /\
  page_port (current_page st') = 70 /\
  items (current_page st') = items (current_page initial_state) /\
  raw_text (current_page st') = raw_text (current_page initial_state) /\
  is_menu (current_page st') = is_menu (current_page initial_state) /\
  selected_index st' = selected_index initial_state /\
  scroll_offset st' = scroll_offset initial_state /\
  is_loading st' = false.
Proof.
  apply (navigate_to_empty_fetch unreachable_net (lit "gopher.floodgap.com")
           (lit "/") 70 GOPHER_MENU initial_state).
  reflexivity.
Defined.

Lemma history_back (h : list HistoryEntry) (e : HistoryEntry) :
  empty (h ++ [e]) = false /\
  last (h ++ [e]) (mkEntry [] [] 0) = e /\
  removelast (h ++ [e]) = h.
Proof.
  split; [destruct h; reflexivity|].
  split; [apply last_last|apply removelast_last].
Qed.

(** C9. When [go_back] pops an entry and its fetch returns an empty
    response, it returns false; the popped entry is gone from the history
    (what remains is exactly the entries below it); the current page's host,
    selector and port are the popped address; and the items, raw text, menu
    flag, selection and scroll offset of the page shown before are kept. *)
Theorem go_back_empty_fetch (net : Network) (st : State)
    (h : list HistoryEntry) (e : HistoryEntry) :
  history st = h ++ [e] ->
  response_of net (c_str (entry_host e)) (c_str (entry_selector e))
    (entry_port e) = [] ->
  let st' := snd (go_back net st) in
  fst (go_back net st) = false /\
  history st' = h /\
  page_host (current_page st') = entry_host e /\
  page_selector (current_page st') = entry_selector e /\
  page_port (current_page st') = entry_port e /\
  items (current_page st') = items (current_page st) /\
  raw_text (current_page st') = raw_text (current_page st) /\
  is_menu (current_page st') = is_menu (current_page st) /\
  selected_index st' = selected_index st /\
  scroll_offset st' = scroll_offset st /\
  status_message st' = lit "Failed to load page".
Proof.
  intros Hh Hr st'. subst st'. unfold go_back. rewrite Hh.
  destruct (history_back h e) as (-> & -> & ->).
  fetch_inv st1 Hsame. destruct Hsame as (Hp & Hy & Hs & Hi & Hv & Hl).
  rewrite Hr. cbn [empty fst snd]. cbn in Hp, Hy, Hs, Hi |- *.
  rewrite <- Hp, <- Hy, <- Hi, <- Hs. cbn. repeat split.
Qed.

Lemma parse_gopher_menu_address (response : str) (page : GopherPage) :
  page_entry (parse_gopher_menu response page) = page_entry page /\
  is_menu (parse_gopher_menu response page) = true.
Proof.
  unfold parse_gopher_menu. destruct (menu_loop response [] []).
  split; reflexivity.
Qed.

(** What [go_back] does with a history that ends in [e]. *)
Lemma go_back_pop (net : Network) (st : State) (h : list HistoryEntry)
    (e : HistoryEntry) :
  history st = h ++ [e] ->
  let response :=
    response_of net (c_str (entry_host e)) (c_str (entry_selector e))
      (entry_port e) in
  let st' := snd (go_back net st) in
  history st' = h /\
  page_entry (current_page st') = e /\
  fst (go_back net st) = negb (empty response) /\
  (response <> [] ->
   current_page st' =
     parse_gopher_menu response
       (set_address (entry_host e) (entry_selector e) (entry_port e)
          (current_page st))).
Proof.
  intros Hh response st'. subst st'. unfold go_back. rewrite Hh.
  destruct (history_back h e) as (-> & -> & ->).
  fetch_inv st1 Hsame. destruct Hsame as (Hp & Hy & _).
  fold response. cbn in Hp, Hy.
  destruct response as [|c r] eqn:E; cbn [empty negb fst snd].
  - cbn. rewrite <- Hy, <- Hp. destruct e. repeat split. congruence.
  - cbn [select_first set_status set_selected_index set_scroll_offset
           set_current_page current_page history set_is_loading].
    rewrite <- Hy, <- Hp.
    split; [reflexivity|]. split; [|split; [reflexivity|reflexivity]].
    rewrite (proj1 (parse_gopher_menu_address _ _)). destruct e.
    reflexivity.
Qed.

(** C7. [go_back] on an empty history returns false and leaves the whole
    state (page, selection, history) as it was. On a history [h ++ [e]] it
    pops [e], the entry pushed last, and pushes nothing: the history
    afterwards is [h]; it makes the address of [e] the current one, fetches
    it from the network and succeeds exactly when that response is not
    empty; and the response is parsed with [parse_gopher_menu], whatever
    kind of page was shown and whatever kind the popped page had: the page
    becomes a menu. Right after a [push_history] the entry popped is the one
    that push added. *)
Theorem go_back_pops_and_refetches (net : Network) (st : State) :
  (history st = [] -> go_back net st = (false, st)) /\
  (forall h e,
      history st = h ++ [e] ->
      let response :=
        response_of net (c_str (entry_host e)) (c_str (entry_selector e))
          (entry_port e) in
      let st' := snd (go_back net st) in
      history st' = h /\
      page_entry (current_page st') = e /\
      fst (go_back net st) = negb (empty response) /\
      (response <> [] ->
       current_page st' =
         parse_gopher_menu response
           (set_address (entry_host e) (entry_selector e) (entry_port e)
              (current_page st)) /\
       is_menu (current_page st') = true)) /\
  (exists h,
      history (push_history st) = h ++ [page_entry (current_page st)] /\
      history (snd (go_back net (push_history st))) = h /\
      page_entry (current_page (snd (go_back net (push_history st)))) =
        page_entry (current_page st)).
Proof.
  split; [|split].
  - intros H. unfold go_back. rewrite H. reflexivity.
  - intros h e Hh response st'.
    destruct (go_back_pop net st h e Hh) as (H1 & H2 & H3 & H4).
    fold response st' in H1, H2, H3, H4.
    repeat split; try assumption.
    + apply H4. assumption.
    + rewrite H4 by assumption. apply parse_gopher_menu_address.
  - destruct (push_entry_last (page_entry (current_page st)) (history st))
      as [h Hh].
    exists h. split; [exact Hh|].
    destruct (go_back_pop net (push_history st) h
                (page_entry (current_page st)) Hh) as (H1 & H2 & _).
    split; assumption.
Qed.

Lemma go_back_empty_fetch_witness :
  history visited_state = [entry_floodgap] ++ [entry_sdf] /\
  response_of unreachable_net (c_str (entry_host entry_sdf))
    (c_str (entry_selector entry_sdf)) (entry_port entry_sdf) = [] /\
  let st' := snd (go_back unreachable_net visited_state) in
  fst (go_back unreachable_net visited_state) = false /\
  history st' = [entry_floodgap] /\
  page_host (current_page st') = entry_host entry_sdf /\
  page_selector (current_page st') = entry_selector entry_sdf /\
  page_port (current_page st') = entry_port entry_sdf /\
  items (current_page st') = items (current_page visited_state) /\
  raw_text (current_page st') = raw_text (current_page visited_state) /\
  is_menu (current_page st') = is_menu (current_page visited_state) /\
  selected_index st' = selected_index visited_state /\
  scroll_offset st' = scroll_offset visited_state /\
  status_message st' = lit "Failed to load page".
Proof.
  split; [reflexivity|]. split; [reflexivity|].
  apply (go_back_empty_fetch unreachable_net visited_state [entry_floodgap]
           entry_sdf); reflexivity.
Defined.

Lemma go_back_pops_and_refetches_witness :
  go_back unreachable_net initial_state = (false, initial_state) /\
  let st' := snd (go_back (serving_net [sample_listing]) visited_state) in
  history st' = [entry_floodgap] /\
  fst (go_back (serving_net [sample_listing]) visited_state) = true /\
  items (current_page st') = [item_A] /\
  is_menu (current_page st') = true.
Proof.
  split.
  - apply (proj1 (go_back_pops_and_refetches unreachable_net initial_state)).
    reflexivity.
  - destruct (go_back_pops_and_refetches (serving_net [sample_listing])
                visited_state) as (_ & Hpop & _).
    destruct (Hpop [entry_floodgap] entry_sdf eq_refl)
      as (Hh & _ & Hok & Hpage).
    destruct Hpage as [Hp Hm]; [discriminate|].
    split; [exact Hh|]. split; [exact Hok|].
    split; [rewrite Hp; reflexivity|exact Hm].
Defined.

(* ------------------------------------------------------------------ *)
(** ** The parsers against the specification's description *)

Lemma prepend_nil (p : list str * str) : prepend [] p = p.
Proof. destruct p as [[|l ls] pending]; reflexivity. Qed.

Lemma prepend_app (a b : str) (p : list str * str) :
  prepend a (prepend b p) = prepend (a ++ b) p.
Proof.
  destruct p as [[|l ls] pending]; cbn [prepend]; rewrite app_assoc;
    reflexivity.
Qed.

Lemma scanned_lines_prepend_newline (line : str) (p : list str * str) :
  scanned_lines (prepend line ([] :: fst p, snd p)) = strip_cr line :: scanned_lines p.
Proof. unfold scanned_lines. cbn. rewrite app_nil_r. reflexivity. Qed.

Lemma scanned_lines_pending (line : str) :
  scanned_lines (prepend line ([], [])) = if empty line then [] else [line].
Proof. unfold scanned_lines. cbn. rewrite app_nil_r. reflexivity. Qed.

(** The menu loop started in the middle of a line: [line] holds the
    characters of the current line read so far. *)
Lemma menu_loop_lines (response line : str) (its : list GopherItem) :
  menu_last_line (fst (menu_loop response line its))
    (snd (menu_loop response line its)) =
  its ++ map parse_gopher_line
           (filter non_blank
              (before_end_marker
                 (scanned_lines (prepend line (split_lines response))))).
Proof.
  revert line its. induction response as [|c rest IH]; intros line its.
  - cbn [menu_loop split_lines fst snd]. rewrite scanned_lines_pending.
    unfold menu_last_line. destruct line as [|x line].
    + cbn. rewrite app_nil_r. reflexivity.
    + cbn [empty negb andb before_end_marker].
      destruct (is_end_marker (x :: line)); cbn.
      * rewrite app_nil_r. reflexivity.
      * reflexivity.
  - cbn [menu_loop split_lines]. destruct (Ascii.eqb c LF).
    + rewrite scanned_lines_prepend_newline. cbn [before_end_marker].
      destruct (is_end_marker (strip_cr line)) eqn:E.
      * cbn [fst snd]. unfold menu_last_line. rewrite E.
        rewrite andb_false_r. cbn. rewrite app_nil_r. reflexivity.
      * rewrite IH, prepend_nil. cbn [filter]. unfold non_blank at 2.
        destruct (negb (empty (strip_cr line))); cbn [map].
        -- rewrite <- app_assoc. reflexivity.
        -- reflexivity.
    + rewrite IH, prepend_app. reflexivity.
Qed.

Lemma text_loop_lines (response line : str) (its : list GopherItem) :
  text_last_line (fst (text_loop response line its))
    (snd (text_loop response line its)) =
  its ++ map info_item
           (before_end_marker
              (scanned_lines (prepend line (split_lines response)))).
Proof.
  revert line its. induction response as [|c rest IH]; intros line its.
  - cbn [text_loop split_lines fst snd]. rewrite scanned_lines_pending.
    unfold text_last_line. destruct line as [|x line].
    + cbn. rewrite app_nil_r. reflexivity.
    + cbn [empty negb andb before_end_marker].
      destruct (is_end_marker (x :: line)); cbn.
      * rewrite app_nil_r. reflexivity.
      * reflexivity.
  - cbn [text_loop split_lines]. destruct (Ascii.eqb c LF).
    + rewrite scanned_lines_prepend_newline. cbn [before_end_marker].
      destruct (is_end_marker (strip_cr line)) eqn:E.
      * cbn [fst snd]. unfold text_last_line. rewrite E.
        rewrite andb_false_r. cbn. rewrite app_nil_r. reflexivity.
      * rewrite IH, prepend_nil. cbn [map]. rewrite <- app_assoc.
        reflexivity.
    + rewrite IH, prepend_app. reflexivity.
Qed.

Lemma parse_gopher_menu_items (response : str) (page : GopherPage) :
  items (parse_gopher_menu response page) = menu_items_parsed response.
Proof.
  unfold parse_gopher_menu, menu_items_parsed, parsed_lines.
  pose proof (menu_loop_lines response [] []) as H.
  rewrite prepend_nil in H.
  destruct (menu_loop response [] []) as [line its]. exact H.
Qed.

Lemma parse_text_file_items (response : str) (page : GopherPage) :
  items (parse_text_file response page) = text_items_parsed response.
Proof.
  unfold parse_text_file, text_items_parsed, parsed_lines.
  pose proof (text_loop_lines response [] []) as H.
  rewrite prepend_nil in H.
  destruct (text_loop response [] []) as [line its]. exact H.
Qed.

(** [split_lines] is the decomposition of a response at its newlines:
    gluing the lines back with a newline after each, then the unterminated
    rest, gives the response, and no piece contains a newline. *)
Lemma split_lines_sound (response : str) :
  List.concat (map (fun l => l ++ [LF]) (fst (split_lines response))) ++
    snd (split_lines response) = response /\
  Forall (fun l => ~ In LF l) (fst (split_lines response)) /\
  ~ In LF (snd (split_lines response)).
Proof.
  induction response as [|c rest (IHr & IHl & IHp)]; cbn [split_lines].
  - repeat split; [constructor|intros []].
  - destruct (Ascii.eqb c LF) eqn:E.
    + apply Ascii.eqb_eq in E. subst c. cbn. rewrite IHr.
      repeat split; [constructor; [intros []|exact IHl]|exact IHp].
    + assert (Hc : c <> LF) by (intros ->; rewrite Ascii.eqb_refl in E;
                                discriminate).
      destruct (split_lines rest) as [[|l ls] pending]; cbn in *.
      * split; [f_equal; exact IHr|]. split; [constructor|].
        intros [H|H]; [congruence|contradiction].
      * inversion IHl; subst. split; [reflexivity|].
        split; [constructor; [|assumption]|exact IHp].
        intros [H|H]; [congruence|contradiction].
Qed.

(** Where the code's lines and the specification's part: only in an
    unterminated last line that ends in CR. *)
Lemma strip_cr_end_marker (s : str) :
  is_end_marker (strip_cr s) = true -> s = lit "." \/ s = lit "." ++ [CR].
Proof.
  intros H. apply is_end_marker_iff in H. unfold strip_cr in H.
  destruct (negb (empty s) && Ascii.eqb (last s NUL) CR) eqn:E.
  - apply andb_true_iff in E. destruct E as [Hne Hcr].
    apply Ascii.eqb_eq in Hcr. right.
    assert (Hs : s <> []) by (destruct s; [discriminate|congruence]).
    rewrite (app_removelast_last NUL Hs), H, Hcr. reflexivity.
  - left. exact H.
Qed.

Lemma before_end_marker_exists (ls rest : list str) :
  Exists (fun l => is_end_marker l = true) ls ->
  before_end_marker (ls ++ rest) = before_end_marker ls.
Proof.
  induction ls as [|x ls IH]; intros H; [inversion H|].
  cbn [app before_end_marker]. destruct (is_end_marker x) eqn:E;
    [reflexivity|].
  inversion H as [? ? Hx|? ? Hls]; subst; [congruence|].
  rewrite (IH Hls). reflexivity.
Qed.

Lemma shown_lines_agree (response : str) :
  strip_cr (last_piece response) = last_piece response \/
  Exists (fun l => is_end_marker l = true)
    (map strip_cr (fst (split_lines response))) ->
  before_end_marker (response_lines response) =
  before_end_marker (parsed_lines response).
Proof.
  unfold response_lines, parsed_lines, lines_of, scanned_lines, last_piece.
  rewrite map_app. intros [H|H].
  - destruct (empty (snd (split_lines response))); [reflexivity|].
    cbn [map]. rewrite H. reflexivity.
  - rewrite !before_end_marker_exists by exact H. reflexivity.
Qed.

(** The two parsers do what the specification says on every response whose
    unterminated last line, if it has one, does not end in CR, and on every
    response with a newline-terminated end-marker line. *)
Lemma parsers_follow_spec (response : str) (page : GopherPage) :
  strip_cr (last_piece response) = last_piece response \/
  Exists (fun l => is_end_marker l = true)
    (map strip_cr (fst (split_lines response))) ->
  items (parse_gopher_menu response page) = menu_items_spec response /\
  items (parse_text_file response page) = text_items_spec response.
Proof.
  intros H. rewrite parse_gopher_menu_items, parse_text_file_items.
  unfold menu_items_spec, text_items_spec, menu_items_parsed,
    text_items_parsed.
  rewrite (shown_lines_agree response H). split; reflexivity.
Qed.

(** C4. The lines of a response are those of the specification: the
    response split at its newlines, one trailing CR stripped from each, the
    final line without a newline included; [shown] is the lines before the
    first line ".". For every response whose unterminated last line does
    not end in CR (or that has none), [parse_gopher_menu] yields the items
    [parse_gopher_line] builds from the non-blank lines of [shown], in
    order, and nothing for a blank line, and [parse_text_file] yields one
    [GOPHER_INFO] item per line of [shown], blank ones included, whose
    display text is the line itself; on the listing with a blank line
    between two entries the menu has 2 items and the text page 3. On a
    response that ends in a lone CR the code departs from this: the last
    line is blank once its CR is stripped, yet the menu parser makes an
    item of it (of type CR, selectable) where the specification has one
    item, and the text parser shows the CR where the specification has an
    empty line. *)
Theorem menu_skips_blank_text_keeps (response : str) (page : GopherPage) :
  let shown := before_end_marker (response_lines response) in
  (strip_cr (last_piece response) = last_piece response ->
   items (parse_gopher_menu response page) =
     map parse_gopher_line (filter non_blank shown) /\
   items (parse_text_file response page) = map info_item shown /\
   map item_display (items (parse_text_file response page)) = shown) /\
  Forall (fun it => item_type it = GOPHER_INFO)
    (items (parse_text_file response page)) /\
  map item_display (items (parse_gopher_menu listing_with_blank page)) =
    [lit "A"; lit "B"] /\
  map item_display (items (parse_text_file listing_with_blank page)) =
    [lit "1A" ++ [TAB] ++ lit "foo"; []; lit "0B" ++ [TAB] ++ lit "bar"] /\
  response_lines listing_blank_tail = [lit "1A" ++ [TAB] ++ lit "foo"; []] /\
  menu_items_spec listing_blank_tail =
    [mkItem GOPHER_MENU (lit "A") (lit "foo") [] (Some 70)] /\
  items (parse_gopher_menu listing_blank_tail page) =
    [mkItem GOPHER_MENU (lit "A") (lit "foo") [] (Some 70);
     mkItem CR [] [] [] (Some 70)] /\
  is_selectable (mkItem CR [] [] [] (Some 70)) = true /\
  map item_display (text_items_spec listing_blank_tail) =
    [lit "1A" ++ [TAB] ++ lit "foo"; []] /\
  map item_display (items (parse_text_file listing_blank_tail page)) =
    [lit "1A" ++ [TAB] ++ lit "foo"; [CR]].
Proof.
  intros shown. split.
  - intros H.
    destruct (parsers_follow_spec response page (or_introl H)) as [Hm Ht].
    rewrite Hm, Ht. unfold menu_items_spec, text_items_spec. fold shown.
    split; [reflexivity|]. split; [reflexivity|].
    rewrite map_map. cbn [info_item item_display]. apply map_id.
  - split.
    + rewrite parse_text_file_items. unfold text_items_parsed.
      apply Forall_forall. intros it Hin. apply in_map_iff in Hin.
      destruct Hin as (l & <- & _). reflexivity.
    + repeat split.
Qed.

Lemma menu_skips_blank_text_keeps_witness :
  items (parse_gopher_menu listing_open_tail (current_page initial_state)) =
    [mkItem GOPHER_MENU (lit "A") (lit "foo") [] (Some 70);
     mkItem GOPHER_TEXT (lit "B") (lit "bar") [] (Some 70);
     mkItem GOPHER_MENU (lit "C") (lit "baz") [] (Some 70)] /\
  map item_display
    (items (parse_text_file listing_open_tail (current_page initial_state))) =
    [lit "1A" ++ [TAB] ++ lit "foo"; []; lit "0B" ++ [TAB] ++ lit "bar";
     lit "1C" ++ [TAB] ++ lit "baz"].
Proof.
  pose proof (menu_skips_blank_text_keeps listing_open_tail
                (current_page initial_state)) as H.
  cbv zeta in H. destruct H as [H _].
  destruct (H eq_refl) as (Hm & _ & Ht).
  split; [rewrite Hm|rewrite Ht]; reflexivity.
Defined.

(* ------------------------------------------------------------------ *)
(** ** The end marker *)

Lemma split_lines_app_newline (a b : str) :
  split_lines (a ++ LF :: b) =
  (fst (split_lines a) ++ snd (split_lines a) :: fst (split_lines b),
   snd (split_lines b)).
Proof.
  induction a as [|c a IH]; [reflexivity|].
  cbn [app split_lines]. rewrite IH. destruct (Ascii.eqb c LF).
  - reflexivity.
  - destruct (split_lines a) as [[|l ls] pending]; reflexivity.
Qed.

Lemma parsed_lines_app_newline (a b : str) :
  parsed_lines (a ++ LF :: b) =
  parsed_lines (a ++ [LF]) ++ parsed_lines b.
Proof.
  unfold parsed_lines, scanned_lines. rewrite !split_lines_app_newline.
  cbn [fst snd split_lines empty]. rewrite !map_app. cbn [map].
  rewrite !app_nil_r, <- !app_assoc. reflexivity.
Qed.

Lemma before_end_marker_app (ls rest : list str) (l : str) :
  is_end_marker l = true ->
  before_end_marker (ls ++ l :: rest) = before_end_marker ls.
Proof.
  intros Hl. induction ls as [|x ls IH]; cbn [app before_end_marker].
  - rewrite Hl. reflexivity.
  - destruct (is_end_marker x); [reflexivity|]. rewrite IH. reflexivity.
Qed.

Lemma parsed_lines_end_line (crlf : bool) (post : str) :
  parsed_lines (end_line crlf ++ post) = lit "." :: parsed_lines post.
Proof.
  unfold end_line. rewrite <- !app_assoc. cbn [app].
  replace (lit "." ++ (if crlf then [CR] else []) ++ LF :: post)
    with ((lit "." ++ (if crlf then [CR] else [])) ++ LF :: post)
    by (rewrite <- app_assoc; reflexivity).
  rewrite parsed_lines_app_newline. destruct crlf; reflexivity.
Qed.

Lemma shown_until_end_line (pre post : str) (crlf : bool) :
  before_end_marker (parsed_lines (pre ++ [LF] ++ end_line crlf ++ post)) =
  before_end_marker (parsed_lines (pre ++ [LF])).
Proof.
  cbn [app]. rewrite parsed_lines_app_newline, parsed_lines_end_line.
  apply before_end_marker_app. reflexivity.
Qed.

(** A line "." with its newline (with or without a CR before it) ends the
    parse in both parsers, whatever follows it. *)
Lemma end_line_cuts_response (pre post : str) (crlf : bool)
    (page : GopherPage) :
  items (parse_gopher_menu (pre ++ [LF] ++ end_line crlf ++ post) page) =
    items (parse_gopher_menu (pre ++ [LF]) page) /\
  items (parse_text_file (pre ++ [LF] ++ end_line crlf ++ post) page) =
    items (parse_text_file (pre ++ [LF]) page) /\
  items (parse_gopher_menu (end_line crlf ++ post) page) = [] /\
  items (parse_text_file (end_line crlf ++ post) page) = [].
Proof.
  rewrite !parse_gopher_menu_items, !parse_text_file_items.
  unfold menu_items_parsed, text_items_parsed.
  rewrite shown_until_end_line, parsed_lines_end_line.
  repeat split.
Qed.

Lemma before_end_marker_none (ls : list str) :
  Forall (fun l => is_end_marker l = false) ls -> before_end_marker ls = ls.
Proof.
  induction 1 as [|l ls Hl _ IH]; [reflexivity|].
  cbn [before_end_marker]. rewrite Hl, IH. reflexivity.
Qed.

Lemma before_end_marker_first (before after : list str) :
  Forall (fun l => is_end_marker l = false) before ->
  before_end_marker (before ++ lit "." :: after) = before.
Proof.
  intros H. rewrite before_end_marker_app by reflexivity.
  apply before_end_marker_none. exact H.
Qed.

(** A line "." of the specification's lines is a newline-terminated line
    of the response, or the unterminated last line, which is then "." or
    ".", CR. *)
Lemma marker_line_place (response : str) (before after : list str) :
  response_lines response = before ++ lit "." :: after ->
  after <> [] \/ last_piece response <> lit "." ++ [CR] ->
  strip_cr (last_piece response) = last_piece response \/
  Exists (fun l => is_end_marker l = true)
    (map strip_cr (fst (split_lines response))).
Proof.
  unfold response_lines, lines_of, last_piece. rewrite map_app.
  set (ls := map strip_cr (fst (split_lines response))).
  set (tail := snd (split_lines response)).
  intros Hlines Hplace. destruct (empty tail) eqn:E.
  - left. apply empty_true in E. rewrite E. reflexivity.
  - cbn [map] in Hlines.
    destruct (exists_last (l := lit "." :: after)) as (init & x & Hx);
      [discriminate|].
    rewrite Hx, app_assoc in Hlines. apply app_inj_tail in Hlines.
    destruct Hlines as [Hls Hlast].
    destruct init as [|y init].
    + injection Hx as Hdot Hafter. left.
      destruct Hplace as [Hp|Hp]; [congruence|].
      destruct (strip_cr_end_marker tail) as [Ht|Ht].
      * apply is_end_marker_iff. rewrite Hlast, <- Hdot. reflexivity.
      * rewrite Ht. reflexivity.
      * contradiction.
    + injection Hx as Hdot _. right. rewrite Hls, <- Hdot.
      apply Exists_app. right. left. reflexivity.
Qed.

(** C5. The lines of a response are those of the specification (one
    trailing CR stripped from each, the final line without a newline
    included). When one of them is ".", take the first: unless that line is
    the unterminated last line of the response and ends in CR, both parsers
    stop there, the menu parser with the items of the non-blank lines
    before it and the text parser with one item per line before it, and no
    later line contributes anything; on the specification's example the
    menu has exactly the item "A". When the end-marker line is the last
    one and arrives as ".", CR without its newline the code departs from
    this: for the specification the line is the end marker, the parsers
    make an item of it. *)
Theorem end_marker_stops_parsing (response : str) (page : GopherPage) :
  (forall before after,
      response_lines response = before ++ lit "." :: after ->
      Forall (fun l => is_end_marker l = false) before ->
      after <> [] \/ last_piece response <> lit "." ++ [CR] ->
      items (parse_gopher_menu response page) =
        map parse_gopher_line (filter non_blank before) /\
      items (parse_text_file response page) = map info_item before) /\
  items (parse_gopher_menu sample_listing page) = [item_A] /\
  response_lines listing_marker_tail =
    [lit "1A" ++ [TAB] ++ lit "foo" ++ [TAB] ++ lit "ex.com" ++ [TAB] ++
     lit "70"; lit "."] /\
  menu_items_spec listing_marker_tail = [item_A] /\
  items (parse_gopher_menu listing_marker_tail page) =
    [item_A; mkItem "."%char [CR] [] [] (Some 70)] /\
  map item_display (text_items_spec listing_marker_tail) =
    [lit "1A" ++ [TAB] ++ lit "foo" ++ [TAB] ++ lit "ex.com" ++ [TAB] ++
     lit "70"] /\
  map item_display (items (parse_text_file listing_marker_tail page)) =
    [lit "1A" ++ [TAB] ++ lit "foo" ++ [TAB] ++ lit "ex.com" ++ [TAB] ++
     lit "70"; lit "." ++ [CR]].
Proof.
  split; [|repeat split].
  intros before after Hlines Hfirst Hplace.
  destruct (parsers_follow_spec response page
              (marker_line_place response before after Hlines Hplace))
    as [Hm Ht].
  rewrite Hm, Ht. unfold menu_items_spec, text_items_spec.
  rewrite Hlines, (before_end_marker_first before after Hfirst).
  split; reflexivity.
Qed.

Lemma end_marker_stops_parsing_witness :
  items (parse_gopher_menu sample_listing (current_page initial_state)) =
    [item_A] /\
  map item_display
    (items (parse_text_file sample_listing (current_page initial_state))) =
    [lit "1A" ++ [TAB] ++ lit "foo" ++ [TAB] ++ lit "ex.com" ++ [TAB] ++
     lit "70"].
Proof.
  destruct (proj1 (end_marker_stops_parsing sample_listing
                     (current_page initial_state))
              [lit "1A" ++ [TAB] ++ lit "foo" ++ [TAB] ++ lit "ex.com" ++
               [TAB] ++ lit "70"]
              [lit "1B" ++ [TAB] ++ lit "bar" ++ [TAB] ++ lit "ex.com" ++
               [TAB] ++ lit "70"]
              eq_refl) as [Hm Ht].
  - repeat constructor.
  - left. discriminate.
  - split; [rewrite Hm|rewrite Ht]; reflexivity.
Defined.

(* ------------------------------------------------------------------ *)
(** ** The unterminated last line *)

Lemma split_lines_no_newline (line : str) :
  ~ In LF line -> split_lines line = ([], line).
Proof.
  induction line as [|c line IH]; intros H; [reflexivity|].
  cbn [split_lines]. destruct (Ascii.eqb c LF) eqn:E.
  - apply Ascii.eqb_eq in E. subst c. exfalso. apply H. left. reflexivity.
  - rewrite IH; [reflexivity|]. intros Hin. apply H. right. exact Hin.
Qed.

Lemma parsed_lines_last_line (line : str) :
  ~ In LF line -> line <> [] ->
  parsed_lines line = [line] /\
  parsed_lines (line ++ [LF]) = [strip_cr line].
Proof.
  intros Hlf Hne. unfold parsed_lines.
  rewrite split_lines_app_newline, split_lines_no_newline by exact Hlf.
  unfold scanned_lines. cbn [fst snd map app split_lines empty].
  destruct line; [congruence|]. split; reflexivity.
Qed.

(** Where the two ways of ending the last line do agree: a non-empty last
    line that does not end in CR gives the same items with and without its
    newline, in both parsers, at the start of a response or after a
    newline. *)
Lemma last_line_agrees_without_cr (pre line : str) (page : GopherPage) :
  ~ In LF line -> line <> [] -> strip_cr line = line ->
  items (parse_gopher_menu (pre ++ [LF] ++ line) page) =
    items (parse_gopher_menu (pre ++ [LF] ++ line ++ [LF]) page) /\
  items (parse_text_file (pre ++ [LF] ++ line) page) =
    items (parse_text_file (pre ++ [LF] ++ line ++ [LF]) page) /\
  items (parse_gopher_menu line page) =
    items (parse_gopher_menu (line ++ [LF]) page) /\
  items (parse_text_file line page) =
    items (parse_text_file (line ++ [LF]) page).
Proof.
  intros Hlf Hne Hcr.
  destruct (parsed_lines_last_line line Hlf Hne) as [H1 H2].
  rewrite Hcr in H2.
  rewrite !parse_gopher_menu_items, !parse_text_file_items.
  unfold menu_items_parsed, text_items_parsed. cbn [app].
  rewrite (parsed_lines_app_newline pre line).
  rewrite (parsed_lines_app_newline pre (line ++ [LF])).
  rewrite H1, H2. repeat split.
Qed.

(** C6. The two parsers on a last line that ends in CR and has no newline,
    next to the same line with its newline. The loop removes the CR before
    it looks at a line; the code after the loop does not: the unterminated
    line keeps its CR in the display text, and ".", CR at the end of the
    input is not taken for the end marker but becomes an item of type ".",
    where the terminated line gives no item. *)
Theorem unterminated_last_line_keeps_cr (page : GopherPage) :
  items (parse_gopher_menu (lit "1A" ++ [CR]) page) =
    [mkItem GOPHER_MENU (lit "A" ++ [CR]) [] [] (Some 70)] /\
  items (parse_gopher_menu (lit "1A" ++ [CR; LF]) page) =
    [mkItem GOPHER_MENU (lit "A") [] [] (Some 70)] /\
  items (parse_text_file (lit "abc" ++ [CR]) page) =
    [info_item (lit "abc" ++ [CR])] /\
  items (parse_text_file (lit "abc" ++ [CR; LF]) page) =
    [info_item (lit "abc")] /\
  items (parse_gopher_menu (lit "." ++ [CR]) page) =
    [mkItem "."%char [CR] [] [] (Some 70)] /\
  items (parse_gopher_menu (lit "." ++ [CR; LF]) page) = [].
Proof. repeat split. Qed.

(* ------------------------------------------------------------------ *)
(** ** Transport: the size cap *)

Lemma stream_cons (b : str) (chunks : list str) :
  stream (b :: chunks) = b ++ stream chunks.
Proof. reflexivity. Qed.

Lemma text_buffer_not_empty (b : str) : text_buffer b -> empty b = false.
Proof.
  intros [[H _] _]. destruct b; [unfold size in H; simpl in H; lia|].
  reflexivity.
Qed.

(** The receive loop on text buffers that carry more than the cap allows:
    it stops right after the first buffer that takes the response past the
    cap, and returns everything up to and including that buffer. *)
Lemma recv_loop_past_cap (chunks : list str) (response : str) (st : State) :
  Forall text_buffer chunks ->
  size response <= kMaxResponseSize ->
  kMaxResponseSize < size response + size (stream chunks) ->
  exists n,
    fst (recv_loop chunks response st) =
      response ++ stream (firstn (S n) chunks) /\
    size (response ++ stream (firstn n chunks)) <= kMaxResponseSize /\
    kMaxResponseSize < size (fst (recv_loop chunks response st)) /\
    size (fst (recv_loop chunks response st)) <=
      kMaxResponseSize + kRecvMax /\
    status_message (snd (recv_loop chunks response st)) =
      lit "Response too large".
Proof.
  intros Hall. revert response.
  induction Hall as [|b rest Hb Hrest IH]; intros response Hle Hgt.
  - unfold stream, size in Hgt, Hle. cbn [List.concat List.length] in Hgt.
    lia.
  - cbn [recv_loop]. rewrite (text_buffer_not_empty b Hb).
    destruct Hb as [[Hb0 Hb1] Hc]. rewrite Hc.
    destruct (size (response ++ b) >? kMaxResponseSize) eqn:E.
    + exists 0%nat. cbn [fst snd firstn stream List.concat].
      rewrite !app_nil_r. rewrite size_app in E |- *.
      repeat split; lia.
    + rewrite size_app in E. rewrite stream_cons, size_app in Hgt.
      destruct (IH (response ++ b)) as (n & H1 & H2 & H3 & H4 & H5).
      * rewrite size_app. lia.
      * rewrite size_app. lia.
      * exists (S n). rewrite H1 in *.
        change (firstn (S (S n)) (b :: rest)) with (b :: firstn (S n) rest).
        change (firstn (S n) (b :: rest)) with (b :: firstn n rest).
        rewrite !stream_cons, !app_assoc.
        repeat split; assumption.
Qed.

Lemma fetch_past_cap (net : Network) (host selector : str) (port : Z)
    (exchange : str -> option (list str)) (chunks : list str) :
  net host port = Connected exchange ->
  exchange (selector ++ [CR; LF]) = Some chunks ->
  Forall text_buffer chunks ->
  kMaxResponseSize < size (stream chunks) ->
  exists n,
    response_of net host selector port = stream (firstn (S n) chunks) /\
    size (stream (firstn n chunks)) <= kMaxResponseSize /\
    kMaxResponseSize < size (response_of net host selector port) /\
    size (response_of net host selector port) <=
      kMaxResponseSize + kRecvMax.
Proof.
  intros Hnet Hex Hall Hgt.
  unfold response_of, fetch_gopher, connect_to_host. rewrite Hnet, Hex.
  destruct (recv_loop_past_cap chunks [] initial_state Hall)
    as (n & H1 & H2 & H3 & H4 & _).
  - unfold size, kMaxResponseSize. simpl. lia.
  - unfold size at 1. simpl. lia.
  - exists n. cbn [app] in H1, H2. auto.
Qed.

(** A load that succeeds: the page is replaced by the parse of the
    response, the selection is the first selectable item or none, the status
    is cleared. *)
Lemma navigate_to_loaded (net : Network) (host selector : str) (port : Z)
    (expected_type : ascii) (st : State) :
  response_of net host selector port <> [] ->
  let response := response_of net host selector port in
  let st' := navigate_to net host selector port expected_type st in
  let page := set_address host selector port (current_page st) in
  current_page st' =
    (if Ascii.eqb expected_type GOPHER_TEXT ||
        Ascii.eqb expected_type GOPHER_HTML
     then parse_text_file response page
     else parse_gopher_menu response page) /\
  selected_index st' = find_selectable (items (current_page st')) 0 (-1) /\
  scroll_offset st' = 0 /\
  status_message st' = [].
Proof.
  intros Hne response st' page. subst st' page. unfold navigate_to.
  fetch_inv st1 Hsame. destruct Hsame as (Hp & _).
  fold response in Hne |- *.
  destruct response as [|c r]; [congruence|]. cbn [empty].
  assert (Hp' : current_page st1 =
                set_address host selector port (current_page st)).
  { rewrite <- Hp. destruct (empty (page_host (current_page st)));
      reflexivity. }
  cbn. rewrite Hp'. repeat split.
Qed.

Lemma go_back_loaded (net : Network) (st : State) (h : list HistoryEntry)
    (e : HistoryEntry) :
  history st = h ++ [e] ->
  response_of net (c_str (entry_host e)) (c_str (entry_selector e))
    (entry_port e) <> [] ->
  let st' := snd (go_back net st) in
  selected_index st' = find_selectable (items (current_page st')) 0 (-1) /\
  scroll_offset st' = 0 /\
  status_message st' = [].
Proof.
  intros Hh Hne st'. subst st'. unfold go_back. rewrite Hh.
  destruct (history_back h e) as (-> & -> & ->).
  fetch_inv st1 Hsame. clear Hsame.
  destruct (response_of net (c_str (entry_host e))
              (c_str (entry_selector e)) (entry_port e)) as [|c r];
    [congruence|].
  cbn. repeat split.
Qed.

(** C2 (amended). When the buffers the peer delivers (text: 1 to 4095
    bytes each, no NUL) carry more than 512 KiB, [fetch_gopher] stops right
    after the first buffer that takes the response past the cap and returns
    every byte received up to and including that buffer: more than 512 KiB
    and at most 512 KiB + 4095 bytes. No error comes of it: the response is
    not empty, and [navigate_to] loads it and clears the status. *)
Theorem fetch_stops_past_cap (net : Network) (host selector : str)
    (port : Z) (exchange : str -> option (list str)) (chunks : list str)
    (expected_type : ascii) (st : State) :
  net host port = Connected exchange ->
  exchange (selector ++ [CR; LF]) = Some chunks ->
  Forall text_buffer chunks ->
  kMaxResponseSize < size (stream chunks) ->
  let response := response_of net host selector port in
  (exists n,
      response = stream (firstn (S n) chunks) /\
      size (stream (firstn n chunks)) <= kMaxResponseSize) /\
  kMaxResponseSize < size response /\
  size response <= kMaxResponseSize + kRecvMax /\
  status_message (navigate_to net host selector port expected_type st) = [].
Proof.
  intros Hnet Hex Hall Hgt response.
  destruct (fetch_past_cap net host selector port exchange chunks
              Hnet Hex Hall Hgt) as (n & H1 & H2 & H3 & H4).
  fold response in H1, H3, H4.
  split; [exists n; auto|]. split; [exact H3|]. split; [exact H4|].
  apply navigate_to_loaded. fold response. intros E. rewrite E in H3.
  unfold size, kMaxResponseSize in H3. simpl in H3. lia.
Qed.

Lemma c_str_repeat (c : ascii) (n : nat) :
  c <> NUL -> c_str (repeat c n) = repeat c n.
Proof.
  intros Hc. induction n as [|n IH]; [reflexivity|].
  cbn [repeat c_str]. destruct (Ascii.eqb c NUL) eqn:E.
  - apply Ascii.eqb_eq in E. contradiction.
  - rewrite IH. reflexivity.
Qed.

Lemma size_repeat {A : Type} (x : A) (n : nat) :
  size (repeat x n) = Z.of_nat n.
Proof. unfold size. rewrite repeat_length. reflexivity. Qed.

Lemma firstn_repeat {A : Type} (x : A) (n m : nat) :
  firstn n (repeat x m) = repeat x (Nat.min n m).
Proof.
  revert m. induction n as [|n IH]; intros [|m]; try reflexivity.
  cbn [repeat firstn Nat.min]. rewrite IH. reflexivity.
Qed.

Lemma size_stream_repeat (b : str) (n : nat) :
  size (stream (repeat b n)) = Z.of_nat n * size b.
Proof.
  induction n as [|n IH]; [reflexivity|].
  cbn [repeat]. rewrite stream_cons, size_app, IH. lia.
Qed.

Lemma full_buffer_text : text_buffer full_buffer /\ size full_buffer = 4095.
Proof.
  assert (Hs : size full_buffer = 4095)
    by (unfold full_buffer; rewrite size_repeat; reflexivity).
  split; [|exact Hs]. split.
  - rewrite Hs. unfold kRecvMax. lia.
  - apply c_str_repeat. discriminate.
Qed.

Lemma flood_chunks_text :
  Forall text_buffer flood_chunks /\
  kMaxResponseSize < size (stream flood_chunks).
Proof.
  split.
  - apply Forall_forall. intros b Hb. apply repeat_spec in Hb. subst b.
    apply full_buffer_text.
  - unfold flood_chunks. rewrite size_stream_repeat.
    rewrite (proj2 full_buffer_text). unfold kMaxResponseSize. lia.
Qed.

Lemma fetch_stops_past_cap_witness :
  let response := response_of (serving_net flood_chunks) (lit "ex.com")
                    (lit "/") 70 in
  (exists n,
      response = stream (firstn (S n) flood_chunks) /\
      size (stream (firstn n flood_chunks)) <= kMaxResponseSize) /\
  kMaxResponseSize < size response /\
  size response <= kMaxResponseSize + kRecvMax /\
  status_message
    (navigate_to (serving_net flood_chunks) (lit "ex.com") (lit "/") 70
       GOPHER_TEXT initial_state) = [].
Proof.
  apply (fetch_stops_past_cap (serving_net flood_chunks) (lit "ex.com")
           (lit "/") 70 (fun _ => Some flood_chunks) flood_chunks
           GOPHER_TEXT initial_state).
  - reflexivity.
  - reflexivity.
  - apply flood_chunks_text.
  - apply flood_chunks_text.
Defined.

Lemma recv_loop_nul (n : nat) (st : State) :
  recv_loop (repeat nul_buffer n) [] st = ([], st).
Proof.
  induction n as [|n IH]; [reflexivity|].
  cbn [repeat recv_loop].
  change (empty nul_buffer) with false.
  change (c_str nul_buffer) with (@nil ascii).
  cbn [app]. exact IH.
Qed.

(** C2 as stated fails: of a stream of 200 full buffers (819000 bytes) the
    fetch returns the first 129 whole buffers, 528255 bytes, which is more
    than the cap of 524288. (And of as many NUL bytes it collects none: it
    reads all 200 buffers and returns the empty response.) *)
Lemma fetch_returns_more_than_cap :
  size (stream flood_chunks) = 819000 /\
  kMaxResponseSize = 524288 /\
  size (response_of (serving_net flood_chunks) (lit "ex.com") (lit "/") 70)
    = 528255 /\
  size (stream nul_chunks) = 819000 /\
  response_of (serving_net nul_chunks) (lit "ex.com") (lit "/") 70 = [].
Proof.
  split; [|split; [reflexivity|split; [|split]]].
  - unfold flood_chunks. rewrite size_stream_repeat.
    rewrite (proj2 full_buffer_text). reflexivity.
  - destruct (fetch_past_cap (serving_net flood_chunks) (lit "ex.com")
                (lit "/") 70 (fun _ => Some flood_chunks) flood_chunks
                eq_refl eq_refl (proj1 flood_chunks_text)
                (proj2 flood_chunks_text)) as (n & H1 & H2 & H3 & _).
    rewrite H1 in H3 |- *. unfold flood_chunks in H2, H3 |- *.
    rewrite firstn_repeat, size_stream_repeat in H2, H3 |- *.
    rewrite (proj2 full_buffer_text) in H2, H3 |- *.
    unfold kMaxResponseSize in H2, H3. lia.
  - unfold nul_chunks. rewrite size_stream_repeat. unfold nul_buffer.
    rewrite size_repeat. reflexivity.
  - unfold response_of, fetch_gopher, connect_to_host, serving_net,
      nul_chunks.
    rewrite recv_loop_nul. reflexivity.
Qed.

(* ------------------------------------------------------------------ *)
(** ** Selection *)

Lemma at_index_Some {A : Type} (v : list A) (i : Z) :
  0 <= i < size v -> exists x, at_index v i = Some x.
Proof.
  intros [H0 H1]. unfold at_index.
  destruct (i <? 0) eqn:E; [lia|].
  destruct (nth_error v (Z.to_nat i)) as [x|] eqn:En; [eauto|].
  apply nth_error_None in En. unfold size in H1. lia.
Qed.

Lemma at_index_range {A : Type} (v : list A) (i : Z) (x : A) :
  at_index v i = Some x -> 0 <= i < size v.
Proof.
  unfold at_index. destruct (i <? 0) eqn:E; [discriminate|].
  intros H. assert (Hn : nth_error v (Z.to_nat i) <> None) by congruence.
  apply nth_error_Some in Hn. unfold size. lia.
Qed.

Lemma selectable_at_range (its : list GopherItem) (i : Z) :
  selectable_at its i -> 0 <= i < size its.
Proof. intros (it & H & _). exact (at_index_range its i it H). Qed.

Lemma at_index_cons {A : Type} (x : A) (v : list A) (i : Z) :
  0 <= i -> at_index (x :: v) (i + 1) = at_index v i.
Proof.
  intros H. unfold at_index.
  destruct (i + 1 <? 0) eqn:E1; [lia|]. destruct (i <? 0) eqn:E2; [lia|].
  replace (Z.to_nat (i + 1)) with (S (Z.to_nat i)) by lia. reflexivity.
Qed.

(** Whatever a search loop selects is a selectable item. *)
Lemma scan_direction_found (fuel : nat) (its : list GopherItem)
    (d i j : Z) :
  scan_direction fuel its d i = Some (Some j) -> selectable_at its j.
Proof.
  revert i. induction fuel as [|fuel IH]; intros i; cbn [scan_direction];
    [discriminate|].
  destruct ((0 <=? i) && (i <? size its)); [|discriminate].
  destruct (at_index its i) as [it|] eqn:Ei; [|discriminate].
  destruct (is_selectable it) eqn:Es.
  - intros H. injection H as <-. exists it. auto.
  - apply IH.
Qed.

Lemma wrap_from_start_found (n : nat) (its : list GopherItem) (i j : Z) :
  wrap_from_start n its i = Some (Some j) -> selectable_at its j.
Proof.
  revert i. induction n as [|n IH]; intros i; cbn [wrap_from_start];
    [discriminate|].
  destruct (at_index its i) as [it|] eqn:Ei; [|discriminate].
  destruct (is_selectable it) eqn:Es.
  - intros H. injection H as <-. exists it. auto.
  - apply IH.
Qed.

Lemma wrap_from_end_found (n : nat) (its : list GopherItem) (i j : Z) :
  wrap_from_end n its i = Some (Some j) -> selectable_at its j.
Proof.
  revert i. induction n as [|n IH]; intros i; cbn [wrap_from_end];
    [discriminate|].
  destruct (at_index its i) as [it|] eqn:Ei; [|discriminate].
  destruct (is_selectable it) eqn:Es.
  - intros H. injection H as <-. exists it. auto.
  - apply IH.
Qed.



(** *** The search loops end *)

Section SearchLoopsEnd.

Variable its : list GopherItem.







End SearchLoopsEnd.


(** *** The selection after a load *)

Lemma at_index_nil {A : Type} (k : Z) : at_index (@nil A) k = None.
Proof.
  unfold at_index. destruct (k <? 0); [reflexivity|].
  destruct (Z.to_nat k); reflexivity.
Qed.

Lemma selectable_at_cons (it : GopherItem) (its : list GopherItem) (k : Z) :
  selectable_at (it :: its) k <->
  (k = 0 /\ is_selectable it = true) \/ (0 < k /\ selectable_at its (k - 1)).
Proof.
  split.
  - intros (x & Hx & Hs). pose proof (at_index_range _ _ _ Hx) as [H0 _].
    destruct (Z.eq_dec k 0) as [->|Hk].
    + left. cbn in Hx. injection Hx as ->. auto.
    + right. split; [lia|]. exists x. split; [|exact Hs].
      rewrite <- (at_index_cons it its (k - 1)) by lia.
      replace (k - 1 + 1) with k by lia. exact Hx.
  - intros [[-> Hs]|[Hk (x & Hx & Hs)]].
    + exists it. auto.
    + exists x. split; [|exact Hs].
      rewrite <- (at_index_cons it its (k - 1)) in Hx
        by (apply at_index_range in Hx; lia).
      replace (k - 1 + 1) with k in Hx by lia. exact Hx.
Qed.

(** "Find first selectable item": the scan returns the least index of a
    selectable item, counted from [i], or -1 when no item is selectable. *)
Lemma find_selectable_first (its : list GopherItem) (i : Z) :
  (find_selectable its i (-1) = -1 /\ forall k, ~ selectable_at its k) \/
  (exists j,
      find_selectable its i (-1) = i + j /\ selectable_at its j /\
      forall k, k < j -> ~ selectable_at its k).
Proof.
  revert i. induction its as [|it its IH]; intros i; cbn [find_selectable].
  - left. split; [reflexivity|]. intros k (x & Hx & _).
    rewrite at_index_nil in Hx. discriminate.
  - destruct (is_selectable it) eqn:Es.
    + right. exists 0. split; [lia|]. split.
      * exists it. auto.
      * intros k Hk Hsel. apply selectable_at_range in Hsel. lia.
    + destruct (IH (i + 1)) as [[Hf Hn]|(j & Hf & Hj & Hn)].
      * left. split; [exact Hf|]. intros k Hk.
        apply selectable_at_cons in Hk. destruct Hk as [[_ Hk]|[_ Hk]].
        -- congruence.
        -- exact (Hn _ Hk).
      * right. exists (j + 1). split; [lia|]. split.
        -- apply selectable_at_cons. right.
           pose proof (selectable_at_range _ _ Hj).
           split; [lia|]. replace (j + 1 - 1) with j by lia. exact Hj.
        -- intros k Hk Hsel. apply selectable_at_cons in Hsel.
           destruct Hsel as [[_ Hsel]|[_ Hsel]]; [congruence|].
           apply (Hn (k - 1)); [lia|exact Hsel].
Qed.

Lemma find_selectable_first_selected (its : list GopherItem) :
  first_selected its (find_selectable its 0 (-1)).
Proof.
  destruct (find_selectable_first its 0) as [[Hf Hn]|(j & Hf & Hj & Hn)].
  - left. auto.
  - right. rewrite Hf. cbn [Z.add]. auto.
Qed.

Lemma first_selected_valid (st : State) :
  first_selected (items (current_page st)) (selected_index st) ->
  selection_valid st.
Proof. intros [[H _]|[H _]]; [left|right]; exact H. Qed.

Lemma navigate_to_failed_selection (net : Network) (host selector : str)
    (port : Z) (expected_type : ascii) (st : State) :
  response_of net host selector port = [] ->
  let st' := navigate_to net host selector port expected_type st in
  items (current_page st') = items (current_page st) /\
  selected_index st' = selected_index st.
Proof.
  intros Hr st'. subst st'. unfold navigate_to.
  fetch_inv st1 Hsame. destruct Hsame as (Hp & _ & _ & Hi & _).
  rewrite Hr. cbn [empty]. cbn in Hp, Hi |- *. rewrite <- Hp, <- Hi.
  destruct (empty (page_host (current_page st))); split; reflexivity.
Qed.

Lemma go_back_failed_selection (net : Network) (st : State)
    (h : list HistoryEntry) (e : HistoryEntry) :
  history st = h ++ [e] ->
  response_of net (c_str (entry_host e)) (c_str (entry_selector e))
    (entry_port e) = [] ->
  let st' := snd (go_back net st) in
  items (current_page st') = items (current_page st) /\
  selected_index st' = selected_index st.
Proof.
  intros Hh Hr st'. subst st'. unfold go_back. rewrite Hh.
  destruct (history_back h e) as (-> & -> & ->).
  fetch_inv st1 Hsame. destruct Hsame as (Hp & _ & _ & Hi & _).
  rewrite Hr. cbn [empty fst snd]. cbn in Hp, Hi |- *.
  rewrite <- Hp, <- Hi. split; reflexivity.
Qed.

Lemma selection_valid_same (st st' : State) :
  items (current_page st') = items (current_page st) ->
  selected_index st' = selected_index st ->
  selection_valid st -> selection_valid st'.
Proof. unfold selection_valid. intros -> ->. auto. Qed.

Lemma navigate_to_selection_valid (net : Network) (host selector : str)
    (port : Z) (expected_type : ascii) (st : State) :
  selection_valid st ->
  selection_valid (navigate_to net host selector port expected_type st).
Proof.
  intros Hv. destruct (response_of net host selector port) as [|c r] eqn:E.
  - destruct (navigate_to_failed_selection net host selector port
                expected_type st E) as [Hi Hs].
    exact (selection_valid_same _ _ Hi Hs Hv).
  - destruct (navigate_to_loaded net host selector port expected_type st)
      as (_ & Hs & _); [congruence|].
    apply first_selected_valid. rewrite Hs.
    apply find_selectable_first_selected.
Qed.

Lemma history_snoc (hist : list HistoryEntry) :
  hist = [] \/ exists h e, hist = h ++ [e].
Proof.
  destruct hist as [|x l]; [left; reflexivity|right].
  exists (removelast (x :: l)), (last (x :: l) x).
  apply app_removelast_last. discriminate.
Qed.

Lemma go_back_selection_valid (net : Network) (st : State) :
  selection_valid st -> selection_valid (snd (go_back net st)).
Proof.
  intros Hv. destruct (history_snoc (history st)) as [Hh|(h & e & Hh)].
  - unfold go_back. rewrite Hh. exact Hv.
  - destruct (response_of net (c_str (entry_host e))
                (c_str (entry_selector e)) (entry_port e)) as [|c r] eqn:E.
    + destruct (go_back_failed_selection net st h e Hh E) as [Hi Hs].
      exact (selection_valid_same _ _ Hi Hs Hv).
    + destruct (go_back_loaded net st h e Hh) as (Hs & _); [congruence|].
      apply first_selected_valid. rewrite Hs.
      apply find_selectable_first_selected.
Qed.







(** *** Where [move_selection] goes *)

Section SearchLoopsFind.

Variable its : list GopherItem.

Lemma not_selectable_at (i : Z) (it : GopherItem) :
  at_index its i = Some it -> is_selectable it = false ->
  ~ selectable_at its i.
Proof. intros Hi Hs (x & Hx & Hsx). congruence. Qed.



Lemma wrap_from_start_spec (n : nat) (i : Z) (r : option Z) :
  wrap_from_start n its i = Some r ->
  match r with
  | Some j => i <= j < i + Z.of_nat n /\ selectable_at its j /\
              forall k, i <= k < j -> ~ selectable_at its k
  | None => forall k, i <= k < i + Z.of_nat n -> ~ selectable_at its k
  end.
Proof.
  revert i. induction n as [|n IH]; intros i; cbn [wrap_from_start].
  - intros H. injection H as <-. intros k Hk. lia.
  - destruct (at_index its i) as [it|] eqn:Ei; [|discriminate].
    destruct (is_selectable it) eqn:Es.
    + intros H. injection H as <-. split; [lia|]. split.
      * exists it. auto.
      * intros k Hk. lia.
    + intros H. specialize (IH (i + 1) H).
      pose proof (not_selectable_at i it Ei Es) as Hn.
      destruct r as [j|].
      * destruct IH as (Hj & Hs & Hk). split; [lia|]. split; [exact Hs|].
        intros k Hr. destruct (Z.eq_dec k i) as [->|Hne]; [exact Hn|].
        apply Hk. lia.
      * intros k Hr. destruct (Z.eq_dec k i) as [->|Hne]; [exact Hn|].
        apply IH. lia.
Qed.


End SearchLoopsFind.





(** The specification's example: from "A" the selection moves forward to
    "B" and, one more step forward, wraps to "A"; backward from "A" it wraps
    to "B". On a page of info lines only nothing changes. *)
Lemma move_selection_example :
  option_map selected_index (move_selection 800 1 selection_example) =
    Some 3 /\
  option_map selected_index
    (match move_selection 800 1 selection_example with
     | Some st => move_selection 800 1 st
     | None => None
     end) = Some 1 /\
  option_map selected_index (move_selection 800 (-1) selection_example) =
    Some 3 /\
  move_selection 800 1 info_only_example = Some info_only_example /\
  move_selection 800 (-1) info_only_example = Some info_only_example.
Proof. repeat split. Qed.


(* ================================================================== *)
(** * Further properties of the code *)

(** ** [split] *)

Lemma split_loop_eq (s : str) (delim : ascii) (token : str)
    (result : list str) :
  split_loop s delim token result =
  result ++ (token ++ hd [] (split s delim)) :: tl (split s delim).
Proof.
  unfold split. revert token result.
  induction s as [|c rest IH]; intros token result; cbn [split_loop].
  - cbn. rewrite app_nil_r. reflexivity.
  - destruct (Ascii.eqb c delim).
    + cbn [app]. rewrite (IH [] (result ++ [token])), (IH [] (_ :: nil)).
      cbn [app hd tl]. rewrite <- app_assoc, app_nil_r. reflexivity.
    + cbn [app]. rewrite (IH (token ++ [c]) result), (IH (_ :: nil) nil).
      cbn [app hd tl]. rewrite <- app_assoc. reflexivity.
Qed.

Lemma split_nil (delim : ascii) : split [] delim = [[]].
Proof. reflexivity. Qed.

(** [split] one character at a time: a delimiter ends the (empty) first
    part, any other character goes in front of the first part. *)
Lemma split_cons (c : ascii) (rest : str) (delim : ascii) :
  split (c :: rest) delim =
  if Ascii.eqb c delim then [] :: split rest delim
  else (c :: hd [] (split rest delim)) :: tl (split rest delim).
Proof.
  unfold split at 1. cbn [split_loop]. destruct (Ascii.eqb c delim);
    rewrite split_loop_eq; cbn [app]; [|reflexivity].
  f_equal. unfold split. destruct rest as [|x rest]; [reflexivity|].
  cbn [split_loop]. destruct (Ascii.eqb x delim); rewrite split_loop_eq;
    reflexivity.
Qed.

Lemma split_not_nil (s : str) (delim : ascii) : split s delim <> [].
Proof.
  destruct s as [|c rest]; [discriminate|]. rewrite split_cons.
  destruct (Ascii.eqb c delim); discriminate.
Qed.

Lemma split_hd_tl (s : str) (delim : ascii) :
  split s delim = hd [] (split s delim) :: tl (split s delim).
Proof.
  pose proof (split_not_nil s delim). destruct (split s delim);
    [contradiction|reflexivity].
Qed.

Lemma join_cons (delim : ascii) (p : str) (parts : list str) :
  parts <> [] -> join delim (p :: parts) = p ++ delim :: join delim parts.
Proof. destruct parts; [contradiction|reflexivity]. Qed.

Lemma split_join_parts (delim : ascii) (parts : list str) :
  parts <> [] -> Forall (fun p => ~ In delim p) parts ->
  split (join delim parts) delim = parts.
Proof.
  induction parts as [|p parts IH]; [contradiction|]. intros _ Hall.
  inversion Hall as [|? ? Hp Hrest]; subst.
  destruct parts as [|q parts].
  - cbn [join]. clear IH Hall Hrest.
    induction p as [|c p IHp]; [reflexivity|]. rewrite split_cons.
    destruct (Ascii.eqb c delim) eqn:E.
    + apply Ascii.eqb_eq in E. subst c. exfalso. apply Hp. left. reflexivity.
    + rewrite IHp; [reflexivity|]. intros Hin. apply Hp. right. exact Hin.
  - rewrite join_cons by discriminate.
    specialize (IH ltac:(discriminate) Hrest). clear Hall.
    induction p as [|c p IHp].
    + cbn [app]. rewrite split_cons, Ascii.eqb_refl, IH. reflexivity.
    + cbn [app]. rewrite split_cons.
      destruct (Ascii.eqb c delim) eqn:E.
      * apply Ascii.eqb_eq in E. subst c. exfalso. apply Hp. left.
        reflexivity.
      * rewrite IHp; [reflexivity|].
        intros Hin. apply Hp. right. exact Hin.
Qed.

(** What [split] returns for a string. *)
Lemma split_spec (s : str) (delim : ascii) :
  join delim (split s delim) = s /\
  Forall (fun p => ~ In delim p) (split s delim) /\
  List.length (split s delim) = S (count_occ ascii_dec s delim).
Proof.
  induction s as [|c rest (IHj & IHn & IHl)].
  - repeat split. constructor; [intros []|constructor].
  - rewrite split_cons. destruct (Ascii.eqb c delim) eqn:E.
    + apply Ascii.eqb_eq in E. subst c.
      rewrite join_cons by apply split_not_nil. rewrite IHj.
      split; [reflexivity|]. split.
      * constructor; [intros []|exact IHn].
      * cbn [List.length count_occ]. rewrite IHl.
        destruct (ascii_dec delim delim); [reflexivity|contradiction].
    + assert (Hc : c <> delim)
        by (intros ->; rewrite Ascii.eqb_refl in E; discriminate).
      rewrite (split_hd_tl rest delim) in IHj, IHn, IHl.
      inversion IHn as [|? ? Hh Ht]; subst. split; [|split].
      * destruct (tl (split rest delim)) as [|q qs] eqn:Et.
        -- cbn [join] in IHj |- *. rewrite IHj. reflexivity.
        -- rewrite join_cons in IHj |- * by discriminate.
           cbn [app]. rewrite IHj. reflexivity.
      * constructor; [|exact Ht].
        intros [Hin|Hin]; [congruence|contradiction].
      * cbn [List.length count_occ] in IHl |- *. rewrite IHl.
        destruct (ascii_dec c delim); [contradiction|reflexivity].
Qed.

(** X1. [split] and joining are inverse to each other: the parts of
    [split s delim], written back with [delim] between them, are [s]; no
    part contains [delim]; there is one part more than [s] has delimiters
    (so always at least one); and splitting the join of any non-empty list
    of delimiter-free parts gives those parts back. *)
Theorem split_join_round_trip (delim : ascii) :
  (forall s,
      join delim (split s delim) = s /\
      Forall (fun p => ~ In delim p) (split s delim) /\
      List.length (split s delim) = S (count_occ ascii_dec s delim)) /\
  (forall parts,
      parts <> [] -> Forall (fun p => ~ In delim p) parts ->
      split (join delim parts) delim = parts).
Proof.
  split.
  - intros s. destruct (split_spec s delim) as (Hj & Hn & Hl).
    split; [exact Hj|]. split; [exact Hn|exact Hl].
  - intros parts Hne Hall. apply split_join_parts; assumption.
Qed.

Lemma split_join_round_trip_witness :
  split (join TAB [lit "A menu"; lit "foo"; []; lit "70"]) TAB =
    [lit "A menu"; lit "foo"; []; lit "70"].
Proof.
  apply (proj2 (split_join_round_trip TAB)).
  - discriminate.
  - repeat constructor; cbv; intuition discriminate.
Defined.

(** ** [trim] *)

Lemma drop_while_decomp {A : Type} (f : A -> bool) (l : list A) :
  exists pre, l = pre ++ drop_while f l /\ forallb f pre = true.
Proof.
  induction l as [|x l (pre & Hl & Hp)]; [exists []; auto|].
  cbn [drop_while]. destruct (f x) eqn:E.
  - exists (x :: pre). split; [cbn; congruence|]. cbn. rewrite E, Hp.
    reflexivity.
  - exists []. auto.
Qed.

Lemma drop_while_head {A : Type} (f : A -> bool) (l : list A) (x : A)
    (rest : list A) :
  drop_while f l = x :: rest -> f x = false.
Proof.
  induction l as [|y l IH]; cbn [drop_while]; [discriminate|].
  destruct (f y) eqn:E; [exact IH|]. intros H. injection H as -> _. exact E.
Qed.

Lemma drop_while_id {A : Type} (f : A -> bool) (l : list A) :
  match l with [] => True | x :: _ => f x = false end ->
  drop_while f l = l.
Proof. destruct l as [|x l]; [reflexivity|]. cbn. intros ->. reflexivity. Qed.

Lemma forallb_rev {A : Type} (f : A -> bool) (l : list A) :
  forallb f l = true -> forallb f (rev l) = true.
Proof.
  rewrite !forallb_forall. intros H x Hx. apply H. apply in_rev. exact Hx.
Qed.

(** X2. [trim s] is [s] without a prefix and a suffix made of characters
    of [" \t\r\n"] only; what is left neither starts nor ends with such a
    character, and is empty exactly when [s] has no other character;
    trimming twice is trimming once. *)
Theorem trim_strips_both_ends (s : str) :
  (exists pre post,
      s = pre ++ trim s ++ post /\
      all_trim_chars pre /\ all_trim_chars post) /\
  match first_char (trim s) with
  | Some c => trim_char c = false
  | None => all_trim_chars s
  end /\
  match last_char (trim s) with
  | Some c => trim_char c = false
  | None => all_trim_chars s
  end /\
  trim (trim s) = trim s.
Proof.
  unfold trim, last_char, all_trim_chars.
  destruct (drop_while_decomp trim_char s) as (pre & Hs & Hpre).
  set (x := drop_while trim_char s) in *.
  destruct (drop_while_decomp trim_char (rev x)) as (post & Hx & Hpost).
  set (y := drop_while trim_char (rev x)) in *.
  assert (Hx' : x = rev y ++ rev post).
  { rewrite <- rev_app_distr, <- Hx, rev_involutive. reflexivity. }
  assert (Hy : match y with [] => True | c :: _ => trim_char c = false end).
  { destruct y as [|c y'] eqn:Ey; [exact I|].
    exact (drop_while_head trim_char (rev x) c y' Ey). }
  assert (Hall : rev y = [] -> forallb trim_char s = true).
  { intros Hr. rewrite Hr in Hx'. cbn [app] in Hx'.
    destruct x as [|c x'] eqn:Ex.
    - rewrite Hs, app_nil_r. exact Hpre.
    - pose proof (drop_while_head trim_char s c x' Ex) as Hc.
      pose proof (forallb_rev _ _ Hpost) as Hrp. rewrite <- Hx' in Hrp.
      cbn in Hrp. rewrite Hc in Hrp. discriminate. }
  assert (Hfirst : match rev y with
                   | [] => True
                   | c :: _ => trim_char c = false
                   end).
  { destruct (rev y) as [|c r] eqn:Er; [exact I|].
    cbn [app] in Hx'. exact (drop_while_head trim_char s c _ Hx'). }
  split; [|split; [|split]].
  - exists pre, (rev post). split; [rewrite <- Hx'; exact Hs|].
    split; [exact Hpre|apply forallb_rev; exact Hpost].
  - destruct (rev y) as [|c r] eqn:Er; cbn [first_char];
      [apply Hall; reflexivity|exact Hfirst].
  - rewrite rev_involutive. destruct y as [|c y'] eqn:Ey; cbn [first_char].
    + apply Hall. reflexivity.
    + exact Hy.
  - rewrite (drop_while_id trim_char (rev y)) by exact Hfirst.
    rewrite rev_involutive.
    rewrite (drop_while_id trim_char y) by exact Hy. reflexivity.
Qed.

(** ** [parse_gopher_line] *)

Lemma digit_char_facts (d : Z) :
  is_digit d ->
  digit_value (digit_char d) = Some d /\
  trim_char (digit_char d) = false /\
  isspace (digit_char d) = false /\
  Ascii.eqb (digit_char d) NUL = false /\
  Ascii.eqb (digit_char d) "-"%char = false /\
  Ascii.eqb (digit_char d) "+"%char = false /\
  Ascii.eqb (digit_char d) TAB = false.
Proof.
  unfold is_digit. intros H.
  assert (Hd : d = 0 \/ d = 1 \/ d = 2 \/ d = 3 \/ d = 4 \/ d = 5 \/
               d = 6 \/ d = 7 \/ d = 8 \/ d = 9) by lia.
  repeat (destruct Hd as [->|Hd]); try subst d; repeat split.
Qed.

Lemma drop_while_app_all {A : Type} (f : A -> bool) (ws l : list A) :
  forallb f ws = true -> drop_while f (ws ++ l) = drop_while f l.
Proof.
  induction ws as [|x ws IH]; [reflexivity|]. cbn.
  destruct (f x); [exact IH|discriminate].
Qed.

(** [trim] finds the part between the blanks. *)
Lemma trim_padded (ws1 m ws2 : str) :
  all_trim_chars ws1 -> all_trim_chars ws2 ->
  match first_char m with Some c => trim_char c = false | None => False end ->
  match last_char m with Some c => trim_char c = false | None => False end ->
  trim (ws1 ++ m ++ ws2) = m.
Proof.
  unfold all_trim_chars, last_char, trim. intros H1 H2 Hf Hl.
  rewrite drop_while_app_all by exact H1.
  rewrite (drop_while_id trim_char (m ++ ws2)).
  - rewrite rev_app_distr, drop_while_app_all by (apply forallb_rev; exact H2).
    rewrite (drop_while_id trim_char (rev m)).
    + apply rev_involutive.
    + destruct (rev m); [contradiction|exact Hl].
  - destruct m; [contradiction|exact Hf].
Qed.

Lemma atoi_digits_decimal (ds : list Z) (rest : str) (acc : Z) :
  Forall is_digit ds ->
  atoi_digits (map digit_char ds ++ rest) acc =
  atoi_digits rest (fold_left (fun a d => 10 * a + d) ds acc).
Proof.
  intros H. revert acc. induction H as [|d ds Hd _ IH]; intros acc;
    [reflexivity|].
  cbn [map app atoi_digits fold_left].
  rewrite (proj1 (digit_char_facts d Hd)). apply IH.
Qed.

Lemma c_str_digits (ds : list Z) :
  Forall is_digit ds -> c_str (map digit_char ds) = map digit_char ds.
Proof.
  induction 1 as [|d ds Hd _ IH]; [reflexivity|]. cbn [map c_str].
  destruct (digit_char_facts d Hd) as (_ & _ & _ & -> & _). rewrite IH.
  reflexivity.
Qed.

(** [atoi] reads a sequence of digits as the decimal number it denotes,
    up to [INT_MAX]. *)
Lemma atoi_decimal (ds : list Z) :
  Forall is_digit ds -> ds <> [] ->
  atoi (map digit_char ds) = Z.min INT_MAX (decimal ds).
Proof.
  intros H Hne. unfold atoi. destruct H as [|d ds Hd Hds]; [contradiction|].
  destruct (digit_char_facts d Hd) as (_ & _ & Hsp & _ & Hm & Hp & _).
  cbn [map drop_while]. rewrite Hsp, Hm, Hp.
  change (digit_char d :: map digit_char ds) with (map digit_char (d :: ds)).
  rewrite <- (app_nil_r (map digit_char (d :: ds))).
  rewrite atoi_digits_decimal by (constructor; assumption).
  cbn [atoi_digits]. fold (decimal (d :: ds)).
  assert (Hnn : forall l a, Forall is_digit l -> 0 <= a ->
                            0 <= fold_left (fun a d => 10 * a + d) l a).
  { induction l as [|x l IHl]; intros a Hl Ha; [exact Ha|].
    inversion Hl; subst. cbn [fold_left]. apply IHl; [assumption|].
    unfold is_digit in *. lia. }
  specialize (Hnn (d :: ds) 0 ltac:(constructor; assumption) ltac:(lia)).
  fold (decimal (d :: ds)) in Hnn. unfold INT_MIN, INT_MAX. lia.
Qed.

Lemma parse_gopher_line_split (type : ascii) (fields : list str) :
  Forall (fun f => ~ In TAB f) fields ->
  forall n, nth n (split (join TAB fields) TAB) [] = nth n fields [].
Proof.
  intros H n. destruct fields as [|f fields].
  - cbn. destruct n as [|[|n]]; reflexivity.
  - rewrite split_join_parts; [reflexivity|discriminate|exact H].
Qed.

Lemma split_length (s : str) (delim : ascii) :
  List.length (split s delim) = S (count_occ ascii_dec s delim).
Proof. apply split_spec. Qed.

Lemma digits_ends (ds : list Z) :
  Forall is_digit ds -> ds <> [] ->
  match first_char (map digit_char ds) with
  | Some c => trim_char c = false
  | None => False
  end /\
  match last_char (map digit_char ds) with
  | Some c => trim_char c = false
  | None => False
  end.
Proof.
  intros H Hne. unfold last_char. rewrite <- map_rev.
  assert (Hr : Forall is_digit (rev ds))
    by (apply Forall_rev; exact H).
  assert (Hrne : rev ds <> []).
  { intros E. apply Hne. rewrite <- (rev_involutive ds), E. reflexivity. }
  split.
  - destruct H as [|d ds' Hd _]; [contradiction|]. cbn.
    apply (digit_char_facts d Hd).
  - destruct Hr as [|d ds' Hd _]; [contradiction|]. cbn.
    apply (digit_char_facts d Hd).
Qed.

(** X3. A well-formed listing line read back field by field: the type
    character, then display text, selector, host and a port written in
    decimal digits (with blanks of [" \r\n"] around it or not), separated by
    tabs, parse to exactly these five values when the port is between 1 and
    [INT_MAX]; whatever further tab-separated fields follow the port is
    ignored. *)
Theorem parse_gopher_line_well_formed (type : ascii)
    (display selector host ws1 ws2 : str) (ds : list Z) (more : list str) :
  ~ In TAB display -> ~ In TAB selector -> ~ In TAB host ->
  all_trim_chars ws1 -> ~ In TAB ws1 ->
  all_trim_chars ws2 -> ~ In TAB ws2 ->
  Forall is_digit ds -> 1 <= decimal ds <= INT_MAX ->
  Forall (fun f => ~ In TAB f) more ->
  parse_gopher_line
    (type ::
     join TAB
       ([display; selector; host; ws1 ++ map digit_char ds ++ ws2] ++ more)) =
  mkItem type display selector host (Some (decimal ds)).
Proof.
  intros Hd Hs Hh Hw1 Ht1 Hw2 Ht2 Hds Hv Hmore.
  assert (Hne : ds <> []).
  { intros ->. unfold decimal in Hv. cbn in Hv. lia. }
  assert (Hport : ~ In TAB (ws1 ++ map digit_char ds ++ ws2)).
  { rewrite !in_app_iff, in_map_iff. intros [H|[(d & Hc & Hin)|H]];
      [contradiction| |contradiction].
    rewrite Forall_forall in Hds.
    destruct (digit_char_facts d (Hds d Hin)) as (_ & _ & _ & _ & _ & _ & E).
    rewrite Hc, Ascii.eqb_refl in E. discriminate. }
  unfold parse_gopher_line. rewrite split_join_parts.
  - cbn [app nth nth_error].
    destruct (digits_ends ds Hds Hne) as [Hf Hl].
    rewrite (trim_padded ws1 (map digit_char ds) ws2 Hw1 Hw2 Hf Hl).
    rewrite c_str_digits, atoi_decimal by assumption.
    destruct ds as [|d ds']; [contradiction|]. cbn [map empty].
    rewrite Z.min_r by lia.
    destruct (Z.leb_spec (decimal (d :: ds')) 0); [lia|reflexivity].
  - discriminate.
  - repeat (constructor; [assumption|]). exact Hmore.
Qed.

Lemma parse_gopher_line_well_formed_witness :
  parse_gopher_line
    (GOPHER_MENU ::
     join TAB
       ([lit "A menu"; lit "foo"; lit "example.com";
         [] ++ map digit_char [7; 0] ++ [CR]] ++ [lit "+"])) =
  mkItem GOPHER_MENU (lit "A menu") (lit "foo") (lit "example.com")
    (Some (decimal [7; 0])).
Proof.
  apply (parse_gopher_line_well_formed GOPHER_MENU (lit "A menu") (lit "foo")
           (lit "example.com") [] [CR] [7; 0] [lit "+"]);
    first
      [ reflexivity
      | solve [cbv; intuition discriminate]
      | solve [repeat constructor; unfold is_digit; lia]
      | solve [unfold decimal, INT_MAX; cbn [fold_left]; lia]
      | solve [repeat constructor; cbv; intuition discriminate] ].
Defined.

(** X4. The port [parse_gopher_line] gives an item is always between 1
    and [INT_MAX]. It is the default 70 whenever the line has fewer than
    four tab-separated fields, and whenever the fourth field, once trimmed,
    is empty or starts with a character that is no digit, sign or white
    space. *)
Theorem parse_gopher_line_port (line : str) :
  (exists p,
      item_port (parse_gopher_line line) = Some p /\ 1 <= p <= INT_MAX) /\
  ((count_occ ascii_dec line TAB < 3)%nat ->
   item_port (parse_gopher_line line) = Some kDefaultGopherPort) /\
  (forall type rest field,
      line = type :: rest ->
      nth_error (split rest TAB) 3 = Some field ->
      match first_char (trim field) with
      | None => True
      | Some c =>
          digit_value c = None /\ isspace c = false /\
          Ascii.eqb c "-"%char = false /\ Ascii.eqb c "+"%char = false
      end ->
      item_port (parse_gopher_line line) = Some kDefaultGopherPort).
Proof.
  split; [|split].
  - destruct line as [|type rest]; cbn [parse_gopher_line item_port].
    + exists kDefaultGopherPort. unfold kDefaultGopherPort, INT_MAX.
      split; [reflexivity|lia].
    + eexists. split; [reflexivity|].
      unfold kDefaultGopherPort, INT_MAX.
      destruct (nth_error (split rest TAB) 3) as [f|]; [|lia].
      destruct (empty (trim f)); [lia|].
      destruct (atoi (c_str (trim f)) <=? 0) eqn:E; [lia|].
      unfold atoi, INT_MAX, INT_MIN in *. lia.
  - intros Hc. destruct line as [|type rest]; [reflexivity|].
    cbn [parse_gopher_line item_port].
    assert (Hn : nth_error (split rest TAB) 3 = None).
    { apply nth_error_None. rewrite split_length. cbn [count_occ] in Hc.
      destruct (ascii_dec type TAB); lia. }
    rewrite Hn. reflexivity.
  - intros type rest field -> Hf Hc.
    cbn [parse_gopher_line item_port]. rewrite Hf.
    destruct (trim field) as [|c t] eqn:Et; [reflexivity|].
    cbn [first_char] in Hc. destruct Hc as (Hd & Hsp & Hm & Hp).
    cbn [empty c_str]. destruct (Ascii.eqb c NUL); [reflexivity|].
    unfold atoi. cbn [drop_while]. rewrite Hsp, Hm, Hp.
    cbn [atoi_digits]. rewrite Hd. reflexivity.
Qed.

Lemma parse_gopher_line_port_witness :
  item_port (parse_gopher_line (lit "1A menu")) = Some kDefaultGopherPort /\
  item_port
    (parse_gopher_line
       (lit "1x" ++ [TAB] ++ lit "foo" ++ [TAB] ++ lit "example.com" ++
        [TAB] ++ lit "abc")) = Some kDefaultGopherPort.
Proof.
  split.
  - apply (proj1 (proj2 (parse_gopher_line_port (lit "1A menu")))).
    cbv. lia.
  - apply (proj2 (proj2 (parse_gopher_line_port _)) "1"%char
             (lit "x" ++ [TAB] ++ lit "foo" ++ [TAB] ++ lit "example.com" ++
              [TAB] ++ lit "abc") (lit "abc")); try reflexivity.
    cbv. repeat split.
Defined.

(** ** [fetch_gopher] *)

Lemma c_str_no_nul (s : str) : ~ In NUL (c_str s).
Proof.
  induction s as [|c s IH]; [intros []|]. cbn [c_str].
  destruct (Ascii.eqb c NUL) eqn:E; [intros []|].
  intros [H|H]; [|exact (IH H)]. subst c. rewrite Ascii.eqb_refl in E.
  discriminate.
Qed.

Lemma c_str_size (s : str) : size (c_str s) <= size s.
Proof.
  induction s as [|c s IH]; [reflexivity|]. cbn [c_str].
  destruct (Ascii.eqb c NUL).
  - pose proof (size_nonneg (c :: s)). exact H.
  - rewrite !size_cons. lia.
Qed.

Lemma c_str_id (s : str) : ~ In NUL s -> c_str s = s.
Proof.
  induction s as [|c s IH]; [reflexivity|]. intros H. cbn [c_str].
  destruct (Ascii.eqb c NUL) eqn:E.
  - apply Ascii.eqb_eq in E. subst c. exfalso. apply H. left. reflexivity.
  - rewrite IH; [reflexivity|]. intros Hin. apply H. right. exact Hin.
Qed.

Lemma recv_loop_no_nul (chunks : list str) (response : str) (st : State) :
  ~ In NUL response -> ~ In NUL (fst (recv_loop chunks response st)).
Proof.
  revert response. induction chunks as [|b rest IH]; intros response Hr;
    cbn [recv_loop]; [exact Hr|].
  destruct (empty b); [exact Hr|].
  assert (Hn : ~ In NUL (response ++ c_str b)).
  { rewrite in_app_iff. intros [H|H]; [exact (Hr H)|].
    exact (c_str_no_nul b H). }
  destruct (size (response ++ c_str b) >? kMaxResponseSize);
    [exact Hn|apply IH; exact Hn].
Qed.

Lemma recv_loop_bounded (chunks : list str) (response : str) (st : State) :
  Forall (fun b => size b <= kRecvMax) chunks ->
  size response <= kMaxResponseSize ->
  size (fst (recv_loop chunks response st)) <= kMaxResponseSize + kRecvMax.
Proof.
  intros Hall. revert response.
  induction Hall as [|b rest Hb _ IH]; intros response Hr; cbn [recv_loop].
  - cbn [fst]. unfold kRecvMax. lia.
  - destruct (empty b); [cbn [fst]; unfold kRecvMax; lia|].
    pose proof (c_str_size b) as Hc.
    destruct (Z.gtb_spec (size (response ++ c_str b)) kMaxResponseSize)
      as [Hgt|Hle].
    + cbn [fst]. rewrite size_app. lia.
    + apply IH. exact Hle.
Qed.

(** X5. Whatever the network does, the response [fetch_gopher] returns
    holds no NUL byte; and when no receive buffer is longer than the 4095
    bytes one [recv] call can deliver, the response is never longer than
    512 KiB + 4095 bytes. *)
Theorem fetch_response_bounded (net : Network) (host selector : str)
    (port : Z) :
  ~ In NUL (response_of net host selector port) /\
  ((forall exchange chunks,
       net host port = Connected exchange ->
       exchange (selector ++ [CR; LF]) = Some chunks ->
       Forall (fun b => size b <= kRecvMax) chunks) ->
   size (response_of net host selector port) <=
     kMaxResponseSize + kRecvMax).
Proof.
  unfold response_of, fetch_gopher, connect_to_host.
  destruct (net host port) as [| | |exchange] eqn:En.
  1-3: split; [intros []|intros _; cbn; unfold size, kMaxResponseSize,
                         kRecvMax; cbn; lia].
  destruct (exchange (selector ++ [CR; LF])) as [chunks|] eqn:Ex.
  - split.
    + apply recv_loop_no_nul. intros [].
    + intros H. apply recv_loop_bounded.
      * exact (H exchange chunks eq_refl Ex).
      * unfold size, kMaxResponseSize. cbn. lia.
  - split; [intros []|intros _; cbn; unfold size, kMaxResponseSize,
                      kRecvMax; cbn; lia].
Qed.

Lemma fetch_response_bounded_witness :
  ~ In NUL (response_of (serving_net nul_chunks) (lit "ex.com") (lit "/") 70)
  /\
  size (response_of (serving_net flood_chunks) (lit "ex.com") (lit "/") 70)
    <= kMaxResponseSize + kRecvMax.
Proof.
  split.
  - apply (fetch_response_bounded (serving_net nul_chunks)).
  - apply (proj2 (fetch_response_bounded (serving_net flood_chunks)
                    (lit "ex.com") (lit "/") 70)).
    intros exchange chunks Hn Hx. injection Hn as <-. injection Hx as <-.
    apply Forall_forall. intros b Hb. apply repeat_spec in Hb. subst b.
    rewrite (proj2 full_buffer_text). unfold kRecvMax. lia.
Defined.

Lemma recv_loop_complete (chunks : list str) (response : str) (st : State) :
  Forall text_buffer chunks ->
  size response + size (stream chunks) <= kMaxResponseSize ->
  recv_loop chunks response st = (response ++ stream chunks, st).
Proof.
  intros Hall. revert response.
  induction Hall as [|b rest Hb _ IH]; intros response Hle;
    cbn [recv_loop].
  - unfold stream. cbn. rewrite app_nil_r. reflexivity.
  - rewrite (text_buffer_not_empty b Hb). destruct Hb as [_ ->].
    rewrite stream_cons, size_app in Hle.
    pose proof (size_nonneg (stream rest)).
    destruct (Z.gtb_spec (size (response ++ b)) kMaxResponseSize)
      as [Hgt|_].
    + rewrite size_app in Hgt. lia.
    + rewrite IH by (rewrite size_app; lia).
      rewrite stream_cons, app_assoc. reflexivity.
Qed.

(** X6. Below the cap nothing is lost: when the connection and the send
    succeed and the peer delivers text buffers of at most 512 KiB in all,
    [fetch_gopher] returns every byte of them, in order, and leaves the
    state (the status message included) as it was. *)
Theorem fetch_complete_below_cap (net : Network) (host selector : str)
    (port : Z) (exchange : str -> option (list str)) (chunks : list str)
    (st : State) :
  net host port = Connected exchange ->
  exchange (selector ++ [CR; LF]) = Some chunks ->
  Forall text_buffer chunks ->
  size (stream chunks) <= kMaxResponseSize ->
  fetch_gopher net host selector port st = (stream chunks, st).
Proof.
  intros Hn Hx Hall Hle. unfold fetch_gopher, connect_to_host.
  rewrite Hn, Hx. rewrite recv_loop_complete.
  - reflexivity.
  - exact Hall.
  - unfold size at 1. cbn. exact Hle.
Qed.

Lemma fetch_complete_below_cap_witness :
  fetch_gopher (serving_net [lit "iHello"; [CR; LF]]) (lit "ex.com")
    (lit "/") 70 initial_state =
  (stream [lit "iHello"; [CR; LF]], initial_state).
Proof.
  apply (fetch_complete_below_cap (serving_net [lit "iHello"; [CR; LF]])
           (lit "ex.com") (lit "/") 70
           (fun _ => Some [lit "iHello"; [CR; LF]])).
  - reflexivity.
  - reflexivity.
  - repeat constructor; cbv; discriminate.
  - cbv. discriminate.
Defined.

(** ** [navigate_to] and [go_back]: status, history, composition *)

(** X7. When [navigate_to] or [go_back] (on a non-empty history) returns,
    the loading flag is off and the status message is one of two: empty
    exactly when the response was not empty, "Failed to load page" exactly
    when it was. Whatever status the transport set ("DNS resolution failed",
    "Response too large", ...) is overwritten before the call returns; and
    [go_back] returns true exactly in the first case. *)
Theorem load_status_is_generic (net : Network) :
  (forall host selector port expected_type st,
      let st' := navigate_to net host selector port expected_type st in
      is_loading st' = false /\
      ((response_of net host selector port <> [] /\
        status_message st' = []) \/
       (response_of net host selector port = [] /\
        status_message st' = lit "Failed to load page"))) /\
  (forall st h e,
      history st = h ++ [e] ->
      let response :=
        response_of net (c_str (entry_host e)) (c_str (entry_selector e))
          (entry_port e) in
      let st' := snd (go_back net st) in
      is_loading st' = false /\
      ((response <> [] /\ fst (go_back net st) = true /\
        status_message st' = []) \/
       (response = [] /\ fst (go_back net st) = false /\
        status_message st' = lit "Failed to load page"))).
Proof.
  split.
  - intros host selector port ty st st'. subst st'. unfold navigate_to.
    fetch_inv st1 Hsame. clear Hsame.
    destruct (response_of net host selector port) as [|c r];
      cbn [empty]; cbn.
    + split; [reflexivity|]. right. split; reflexivity.
    + split; [reflexivity|]. left. split; [discriminate|reflexivity].
  - intros st h e Hh response st'. subst st' response. unfold go_back.
    rewrite Hh. destruct (history_back h e) as (-> & -> & ->).
    fetch_inv st1 Hsame. clear Hsame.
    destruct (response_of net (c_str (entry_host e))
                (c_str (entry_selector e)) (entry_port e)) as [|c r];
      cbn [empty]; cbn.
    + split; [reflexivity|]. right. repeat split.
    + split; [reflexivity|]. left. split; [discriminate|split; reflexivity].
Qed.

Lemma load_status_is_generic_witness :
  let st' := snd (go_back unreachable_net visited_state) in
  is_loading st' = false /\
  ((response_of unreachable_net (c_str (entry_host entry_sdf))
      (c_str (entry_selector entry_sdf)) (entry_port entry_sdf) <> [] /\
    fst (go_back unreachable_net visited_state) = true /\
    status_message st' = []) \/
   (response_of unreachable_net (c_str (entry_host entry_sdf))
      (c_str (entry_selector entry_sdf)) (entry_port entry_sdf) = [] /\
    fst (go_back unreachable_net visited_state) = false /\
    status_message st' = lit "Failed to load page")).
Proof.
  apply (proj2 (load_status_is_generic unreachable_net) visited_state
           [entry_floodgap] entry_sdf).
  reflexivity.
Defined.

(** ** The parsers: writing and reading back, and what the items hold *)

Lemma strip_cr_snoc (l : str) : strip_cr (l ++ [CR]) = l.
Proof.
  unfold strip_cr. rewrite last_last, removelast_last.
  destruct l; reflexivity.
Qed.

Lemma split_lines_write_lines (crlf : bool) (ls : list str) :
  Forall (fun l => ~ In LF l) ls ->
  split_lines (write_lines crlf ls) =
  (map (fun l => l ++ (if crlf then [CR] else [])) ls, []).
Proof.
  induction 1 as [|l ls Hl _ IH]; [reflexivity|].
  unfold write_lines in *. cbn [map List.concat].
  replace ((l ++ line_ending crlf) ++
           List.concat (map (fun l0 => l0 ++ line_ending crlf) ls))
    with ((l ++ (if crlf then [CR] else [])) ++
          LF :: List.concat (map (fun l0 => l0 ++ line_ending crlf) ls))
    by (destruct crlf; cbn [line_ending]; rewrite <- !app_assoc; reflexivity).
  rewrite split_lines_app_newline, IH, split_lines_no_newline.
  - reflexivity.
  - rewrite in_app_iff. intros [H|H]; [exact (Hl H)|].
    destruct crlf; [|exact H]. destruct H as [H|[]]. discriminate.
Qed.

(** X8. Writing lines and reading them back: for lines that hold no
    newline, do not end in CR and are not the end marker ".", written one
    after the other with LF or with CR LF after each, [parse_text_file]
    yields exactly one Info item per line with the line as display text, and
    [parse_gopher_menu] yields what [parse_gopher_line] makes of each
    non-empty line, in order. *)
Theorem parse_written_lines (crlf : bool) (ls : list str)
    (page : GopherPage) :
  Forall (fun l => ~ In LF l /\ strip_cr l = l /\ l <> lit ".") ls ->
  items (parse_text_file (write_lines crlf ls) page) = map info_item ls /\
  map item_display (items (parse_text_file (write_lines crlf ls) page)) =
    ls /\
  items (parse_gopher_menu (write_lines crlf ls) page) =
    map parse_gopher_line (filter non_blank ls).
Proof.
  intros Hall.
  assert (Hlf : Forall (fun l => ~ In LF l) ls).
  { eapply Forall_impl; [|exact Hall]. cbn. intros l H. apply H. }
  assert (Hlines : parsed_lines (write_lines crlf ls) = ls).
  { unfold parsed_lines, scanned_lines.
    rewrite split_lines_write_lines by exact Hlf.
    cbn [fst snd empty]. rewrite app_nil_r, map_map.
    clear Hlf. induction Hall as [|l ls (_ & Hcr & _) _ IH]; [reflexivity|].
    cbn [map]. rewrite IH. f_equal.
    destruct crlf; [apply strip_cr_snoc|rewrite app_nil_r; exact Hcr]. }
  assert (Hshown : before_end_marker ls = ls).
  { apply before_end_marker_none. eapply Forall_impl; [|exact Hall].
    cbn. intros l (_ & _ & Hne).
    destruct (is_end_marker l) eqn:E; [|reflexivity].
    apply is_end_marker_iff in E. contradiction. }
  rewrite parse_text_file_items, parse_gopher_menu_items.
  unfold text_items_parsed, menu_items_parsed. rewrite Hlines, Hshown.
  split; [reflexivity|]. split; [|reflexivity].
  rewrite map_map. cbn [info_item item_display]. apply map_id.
Qed.

Lemma parse_written_lines_witness :
  map item_display
    (items (parse_text_file
              (write_lines true [lit "Dear reader,"; []; lit "bye."])
              (current_page initial_state))) =
  [lit "Dear reader,"; []; lit "bye."].
Proof.
  apply (parse_written_lines true [lit "Dear reader,"; []; lit "bye."]
           (current_page initial_state)).
  repeat constructor; cbv; intuition discriminate.
Defined.

Lemma in_removelast {A : Type} (x : A) (l : list A) :
  In x (removelast l) -> In x l.
Proof.
  induction l as [|y l IH]; [intros []|]. cbn [removelast].
  destruct l as [|z l]; [intros []|].
  intros [H|H]; [left; exact H|right; exact (IH H)].
Qed.

Lemma in_strip_cr (c : ascii) (l : str) : In c (strip_cr l) -> In c l.
Proof.
  unfold strip_cr.
  destruct (negb (empty l) && Ascii.eqb (last l NUL) CR);
    [apply in_removelast|auto].
Qed.

Lemma parsed_lines_no_newline (response : str) :
  Forall (fun l => ~ In LF l) (parsed_lines response).
Proof.
  destruct (split_lines_sound response) as (_ & Hl & Hp).
  unfold parsed_lines, scanned_lines. apply Forall_app. split.
  - apply Forall_forall. intros l Hin. apply in_map_iff in Hin.
    destruct Hin as (l0 & <- & Hin0). rewrite Forall_forall in Hl.
    intros H. exact (Hl l0 Hin0 (in_strip_cr _ _ H)).
  - destruct (empty (snd (split_lines response))); constructor;
      [exact Hp|constructor].
Qed.

Lemma in_before_end_marker (l : str) (ls : list str) :
  In l (before_end_marker ls) -> In l ls.
Proof.
  induction ls as [|x ls IH]; [intros []|]. cbn [before_end_marker].
  destruct (is_end_marker x); [intros []|].
  intros [H|H]; [left; exact H|right; exact (IH H)].
Qed.

Lemma in_join (delim c : ascii) (p : str) (parts : list str) :
  In p parts -> In c p -> In c (join delim parts).
Proof.
  induction parts as [|q parts IH]; [intros []|]. intros Hin Hc.
  destruct parts as [|r parts].
  - destruct Hin as [->|[]]. exact Hc.
  - rewrite join_cons by discriminate. rewrite in_app_iff.
    destruct Hin as [->|Hin]; [left; exact Hc|].
    right. right. exact (IH Hin Hc).
Qed.

(** A field of a split holds no delimiter and only characters of the
    string that was split. *)
Lemma split_field (s : str) (delim : ascii) (n : nat) :
  ~ In delim (nth n (split s delim) []) /\
  forall c, In c (nth n (split s delim) []) -> In c s.
Proof.
  destruct (split_spec s delim) as (Hj & Hn & _).
  destruct (nth_in_or_default n (split s delim) []) as [Hin | ->].
  - split.
    + rewrite Forall_forall in Hn. exact (Hn _ Hin).
    + intros c Hc. rewrite <- Hj. exact (in_join delim c _ _ Hin Hc).
  - split; [intros []|intros c []].
Qed.

Lemma parse_gopher_line_clean (line : str) :
  ~ In LF line ->
  clean_field (item_display (parse_gopher_line line)) /\
  clean_field (item_selector (parse_gopher_line line)) /\
  clean_field (item_host (parse_gopher_line line)).
Proof.
  intros Hlf. destruct line as [|type rest].
  - cbn. unfold clean_field. repeat split; intros [].
  - cbn [parse_gopher_line item_display item_selector item_host].
    assert (H : forall n, clean_field (nth n (split rest TAB) [])).
    { intros n. destruct (split_field rest TAB n) as [Ht Hc].
      split; [exact Ht|]. intros Hin. apply Hlf. right. exact (Hc _ Hin). }
    repeat split; apply H.
Qed.

(** X9. What parsed items hold: in a menu no display text, selector or
    host ever contains a tab or a newline; in a text page every item is an
    Info item without selector or host whose display text contains no
    newline. *)
Theorem parsed_items_clean (response : str) (page : GopherPage) :
  Forall
    (fun it =>
       clean_field (item_display it) /\ clean_field (item_selector it) /\
       clean_field (item_host it))
    (items (parse_gopher_menu response page)) /\
  Forall
    (fun it =>
       item_type it = GOPHER_INFO /\ ~ In LF (item_display it) /\
       item_selector it = [] /\ item_host it = [])
    (items (parse_text_file response page)).
Proof.
  rewrite parse_gopher_menu_items, parse_text_file_items.
  unfold menu_items_parsed, text_items_parsed.
  pose proof (parsed_lines_no_newline response) as Hlf.
  rewrite Forall_forall in Hlf. split.
  - apply Forall_forall. intros it Hin. apply in_map_iff in Hin.
    destruct Hin as (l & <- & Hin). apply filter_In in Hin.
    destruct Hin as [Hin _]. apply parse_gopher_line_clean.
    apply Hlf. apply in_before_end_marker. exact Hin.
  - apply Forall_forall. intros it Hin. apply in_map_iff in Hin.
    destruct Hin as (l & <- & Hin). cbn. repeat split.
    apply Hlf. apply in_before_end_marker. exact Hin.
Qed.

(** What [navigate_to] does to the address and to the history, whether the
    load succeeds or not. *)
Lemma navigate_to_address_history (net : Network) (host selector : str)
    (port : Z) (expected_type : ascii) (st : State) :
  let st' := navigate_to net host selector port expected_type st in
  page_entry (current_page st') = mkEntry host selector port /\
  history st' =
    (if negb (empty (page_host (current_page st)))
     then push_entry (page_entry (current_page st)) (history st)
     else history st) /\
  is_loading st' = false /\
  (scroll_offset st' = scroll_offset st \/ scroll_offset st' = 0).
Proof.
  intros st'. subst st'. unfold navigate_to.
  fetch_inv st1 Hsame. destruct Hsame as (Hp & Hh & Hs & _).
  cbn in Hp, Hh, Hs.
  assert (Hp' : current_page st1 =
                set_address host selector port (current_page st)).
  { rewrite <- Hp. destruct (empty (page_host (current_page st)));
      reflexivity. }
  assert (Hh' : history st1 =
                if negb (empty (page_host (current_page st)))
                then push_entry (page_entry (current_page st)) (history st)
                else history st).
  { rewrite <- Hh. destruct (empty (page_host (current_page st)));
      reflexivity. }
  assert (Hs' : scroll_offset st1 = scroll_offset st).
  { rewrite <- Hs. destruct (empty (page_host (current_page st)));
      reflexivity. }
  destruct (response_of net host selector port) as [|c r]; cbn [empty].
  - cbn. rewrite Hp', Hh', Hs'. repeat split. left. reflexivity.
  - cbn. rewrite Hp', Hh'. split; [|repeat split; right; reflexivity].
    destruct (Ascii.eqb expected_type GOPHER_TEXT ||
              Ascii.eqb expected_type GOPHER_HTML).
    + unfold parse_text_file. destruct (text_loop (c :: r) [] []).
      reflexivity.
    + apply parse_gopher_menu_address.
Qed.

(** X10. Navigating and going back. When a page with a non-empty host is
    shown, [navigate_to] pushes its address whether or not the new load
    succeeds, and a [go_back] right after (whatever the network answers
    then) makes that address the current one again and leaves the history
    as it was before the navigation, or without its oldest entry when it
    was full. When no page is shown yet (empty host), [navigate_to] pushes
    nothing. *)
Theorem navigate_then_go_back (net1 net2 : Network) (host selector : str)
    (port : Z) (expected_type : ascii) (st : State) :
  let st1 := navigate_to net1 host selector port expected_type st in
  let st2 := snd (go_back net2 st1) in
  page_entry (current_page st1) = mkEntry host selector port /\
  (page_host (current_page st) = [] -> history st1 = history st) /\
  (page_host (current_page st) <> [] ->
   history st1 = push_entry (page_entry (current_page st)) (history st) /\
   page_entry (current_page st2) = page_entry (current_page st) /\
   (size (history st) < kMaxHistory -> history st2 = history st) /\
   (size (history st) = kMaxHistory -> history st2 = tl (history st))).
Proof.
  intros st1 st2.
  destruct (navigate_to_address_history net1 host selector port
              expected_type st) as (Ha & Hh & _).
  fold st1 in Ha, Hh. split; [exact Ha|]. split.
  - intros E. rewrite Hh, E. reflexivity.
  - intros Hne. apply empty_false in Hne. rewrite Hne in Hh. cbn [negb] in Hh.
    split; [exact Hh|].
    set (e := page_entry (current_page st)) in *.
    assert (Hpop : forall h, history st1 = h ++ [e] ->
                             page_entry (current_page st2) = e /\
                             history st2 = h).
    { intros h Hh1. destruct (go_back_pop net2 st1 h e Hh1)
        as (H1 & H2 & _). split; assumption. }
    split; [|split].
    + destruct (push_entry_last e (history st)) as [h Hl].
      rewrite Hl in Hh. exact (proj1 (Hpop h Hh)).
    + intros Hlt. rewrite push_entry_below in Hh by exact Hlt.
      exact (proj2 (Hpop _ Hh)).
    + intros Hfull. rewrite push_entry_full in Hh by exact Hfull.
      exact (proj2 (Hpop _ Hh)).
Qed.

Lemma navigate_then_go_back_witness :
  let st1 :=
    navigate_to (serving_net [sample_listing]) (lit "ex.com") (lit "/") 70
      GOPHER_MENU visited_state in
  let st2 := snd (go_back unreachable_net st1) in
  history st1 =
    push_entry (page_entry (current_page visited_state))
      (history visited_state) /\
  page_entry (current_page st2) = page_entry (current_page visited_state) /\
  (size (history visited_state) < kMaxHistory ->
   history st2 = history visited_state) /\
  (size (history visited_state) = kMaxHistory ->
   history st2 = tl (history visited_state)).
Proof.
  apply (navigate_then_go_back (serving_net [sample_listing]) unreachable_net
           (lit "ex.com") (lit "/") 70 GOPHER_MENU visited_state).
  discriminate.
Defined.

(** ** Invariants of the controller *)

Lemma Forall_skipn {A : Type} (P : A -> Prop) (n : nat) (l : list A) :
  Forall P l -> Forall P (skipn n l).
Proof.
  intros H. rewrite <- (firstn_skipn n l) in H.
  apply Forall_app in H. apply H.
Qed.

Lemma Forall_removelast {A : Type} (P : A -> Prop) (l : list A) :
  Forall P l -> Forall P (removelast l).
Proof.
  rewrite !Forall_forall. intros H x Hx. apply H.
  apply in_removelast. exact Hx.
Qed.

Lemma size_removelast {A : Type} (l : list A) :
  size (removelast l) <= size l.
Proof.
  unfold size. destruct l as [|x l]; [reflexivity|].
  rewrite removelast_firstn_len, length_firstn. lia.
Qed.

Lemma navigate_to_controller_ok (net : Network) (host selector : str)
    (port : Z) (expected_type : ascii) (st : State) :
  controller_ok st ->
  controller_ok (navigate_to net host selector port expected_type st).
Proof.
  intros (Hsz & Hhosts & Hsc & _).
  destruct (navigate_to_address_history net host selector port
              expected_type st) as (_ & Hh & Hl & Hs).
  unfold controller_ok. rewrite Hh, Hl.
  destruct (empty (page_host (current_page st))) eqn:E; cbn [negb].
  - repeat split; try assumption. destruct Hs as [-> | ->]; lia.
  - split; [rewrite push_entry_size; lia|]. split.
    + rewrite push_entry_skipn. apply Forall_skipn. apply Forall_app.
      split; [exact Hhosts|]. constructor; [|constructor].
      apply empty_false. exact E.
    + split; [|reflexivity]. destruct Hs as [-> | ->]; lia.
Qed.

Lemma go_back_controller_ok (net : Network) (st : State) :
  controller_ok st -> controller_ok (snd (go_back net st)).
Proof.
  intros Hok. destruct (history_snoc (history st)) as [Hh|(h & e & Hh)].
  - unfold go_back. rewrite Hh. exact Hok.
  - destruct Hok as (Hsz & Hhosts & Hsc & _).
    destruct (go_back_pop net st h e Hh) as (Hh' & _).
    unfold controller_ok. rewrite Hh'. rewrite Hh in Hsz, Hhosts.
    rewrite size_app in Hsz. apply Forall_app in Hhosts.
    pose proof (size_nonneg [e]).
    split; [lia|]. split; [apply Hhosts|].
    unfold go_back. rewrite Hh.
    destruct (history_back h e) as (-> & -> & ->).
    fetch_inv st1 Hsame. destruct Hsame as (_ & _ & Hs & _). cbn in Hs.
    destruct (response_of net (c_str (entry_host e))
                (c_str (entry_selector e)) (entry_port e)) as [|c r];
      cbn [empty]; cbn.
    + rewrite <- Hs. split; [exact Hsc|reflexivity].
    + split; [lia|reflexivity].
Qed.

(** Where [move_selection] leaves the scroll offset. *)
Lemma move_selection_scroll (h d : Z) (st st' : State) :
  move_selection h d st = Some st' ->
  history st' = history st /\ is_loading st' = is_loading st /\
  (st' = st \/
   (selectable_at (items (current_page st)) (selected_index st') /\
    ((selected_index st' < scroll_offset st /\
      scroll_offset st' = selected_index st') \/
     (scroll_offset st + visible_lines st <= selected_index st' /\
      scroll_offset st' = selected_index st' - visible_lines st + 1) \/
     (scroll_offset st <= selected_index st' <
        scroll_offset st + visible_lines st /\
      scroll_offset st' = scroll_offset st) \/
     (d > 0 /\ selected_index st' < selected_index st /\
      scroll_offset st' = 0) \/
     (d <= 0 /\
      scroll_offset st' =
        Z.max 0 (selected_index st' - visible_lines st + 1))))).
Proof.
  intros H. unfold move_selection in H.
  set (its := items (current_page st)) in *.
  destruct (size its =? 0); [injection H as <-; auto|].
  destruct (scan_direction (S (List.length its)) its d
              (selected_index st + d)) as [[j|]|] eqn:Es;
    [| |discriminate].
  - pose proof (scan_direction_found _ _ _ _ _ Es) as Hsel.
    injection H as <-. cbn.
    destruct (Z.ltb_spec j (scroll_offset st)); cbn.
    + repeat split. right. split; [exact Hsel|]. left. auto.
    + destruct (Z.geb_spec j (scroll_offset st + visible_lines st)); cbn.
      * repeat split. right. split; [exact Hsel|]. right. left.
        split; [lia|reflexivity].
      * repeat split. right. split; [exact Hsel|]. right. right. left.
        split; [lia|reflexivity].
  - destruct (Z.gtb_spec d 0) as [Hd|Hd].
    + destruct (wrap_from_start (Z.to_nat (selected_index st)) its 0)
        as [[j|]|] eqn:Ew; [| |discriminate]; injection H as <-; [|auto].
      pose proof (wrap_from_start_found _ _ _ _ Ew) as Hsel.
      apply wrap_from_start_spec in Ew. destruct Ew as (Hj & _).
      cbn. repeat split. right. split; [exact Hsel|].
      right. right. right. left. repeat split; lia.
    + destruct (wrap_from_end (Z.to_nat (size its - 1 - selected_index st))
                  its (size its - 1)) as [[j|]|] eqn:Ew;
        [| |discriminate]; injection H as <-; [|auto].
      pose proof (wrap_from_end_found _ _ _ _ Ew) as Hsel.
      cbn. destruct (Z.ltb_spec (j - visible_lines st + 1) 0); cbn;
        repeat split; right; (split; [exact Hsel|]);
        right; right; right; right; (split; [lia|lia]).
Qed.

Lemma move_selection_controller_ok (h d : Z) (st st' : State) :
  controller_ok st -> move_selection h d st = Some st' -> controller_ok st'.
Proof.
  intros (Hsz & Hhosts & Hsc & Hl) H.
  destruct (move_selection_scroll h d st st' H) as (Hh & Hl' & Hc).
  unfold controller_ok. rewrite Hh, Hl'. repeat split; try assumption.
  destruct Hc as [-> |(Hsel & Hc)]; [exact Hsc|].
  apply selectable_at_range in Hsel.
  destruct Hc as [[_ ->]|[[? ->]|[[_ ->]|[(_ & _ & ->)| [_ ->]]]]]; lia.
Qed.

(** X11. Every state the controller reaches from the initial state by
    [navigate_to], [go_back] and [move_selection] calls, whatever the
    network answers, has at most 50 history entries, only history entries
    with a non-empty host, a scroll offset that is not negative and the
    loading flag off; each of the three operations keeps these four facts
    from any state that has them. *)
Theorem controller_invariants :
  controller_ok initial_state /\
  (forall c st st',
      controller_ok st -> step c st = Some st' -> controller_ok st') /\
  (forall cs st',
      run cs initial_state = Some st' -> controller_ok st').
Proof.
  assert (Hinit : controller_ok initial_state).
  { unfold controller_ok, kMaxHistory. cbn. repeat split; try lia.
    constructor. }
  assert (Hstep : forall c st st',
             controller_ok st -> step c st = Some st' -> controller_ok st').
  { intros [net host selector port ty|net|h d] st st' Hok H; cbn [step] in H.
    - injection H as <-. apply navigate_to_controller_ok. exact Hok.
    - injection H as <-. apply go_back_controller_ok. exact Hok.
    - exact (move_selection_controller_ok h d st st' Hok H). }
  split; [exact Hinit|]. split; [exact Hstep|].
  intros cs. generalize initial_state Hinit.
  induction cs as [|c cs IH]; intros st Hok st' H; cbn [run] in H.
  - injection H as <-. exact Hok.
  - destruct (step c st) as [st1|] eqn:E; [|discriminate].
    exact (IH st1 (Hstep c st st1 Hok E) st' H).
Qed.

Lemma controller_invariants_witness :
  controller_ok
    (navigate_to (serving_net [sample_listing]) (lit "sdf.org") (lit "/") 70
       GOPHER_MENU visited_state).
Proof.
  destruct controller_invariants as (_ & Hstep & _).
  apply (Hstep (Navigate (serving_net [sample_listing]) (lit "sdf.org")
                  (lit "/") 70 GOPHER_MENU) visited_state).
  - unfold controller_ok, kMaxHistory. cbn. repeat split; try lia.
    repeat constructor; discriminate.
  - reflexivity.
Defined.



(* ------------------------------------------------------------------ *)
(** ** Following links, searching, keys *)

Lemma binary_kind_other (type : ascii) :
  is_binary_kind type = true ->
  Ascii.eqb type GOPHER_MENU = false /\
  Ascii.eqb type GOPHER_SEARCH = false /\
  Ascii.eqb type GOPHER_TEXT = false /\
  Ascii.eqb type GOPHER_HTML = false.
Proof.
  unfold is_binary_kind. rewrite !orb_true_iff, !Ascii.eqb_eq.
  intros H. repeat (destruct H as [H|H]); subst type; repeat split.
Qed.

(** [follow_link] past its two guards. *)
Lemma follow_link_selected (env : Env) (a : App) (it : GopherItem) :
  at_index (items (current_page (nav a))) (selected_index (nav a)) =
    Some it ->
  is_selectable it = true ->
  follow_link env a =
    if Ascii.eqb (item_type it) GOPHER_MENU
    then navigate_to_item env it GOPHER_MENU a
    else if Ascii.eqb (item_type it) GOPHER_SEARCH
    then Some (initiate_search it a)
    else if Ascii.eqb (item_type it) GOPHER_TEXT ||
            Ascii.eqb (item_type it) GOPHER_HTML
    then navigate_to_item env it GOPHER_TEXT a
    else if is_binary_kind (item_type it)
    then Some (a, [warning_binary])
    else navigate_to_item env it GOPHER_MENU a.
Proof.
  intros Hit Hsel. unfold follow_link.
  pose proof (at_index_range _ _ _ Hit) as Hr.
  assert (Er : (selected_index (nav a) <? 0) ||
               (selected_index (nav a) >=?
                size (items (current_page (nav a)))) = false).
  { apply orb_false_iff. split; lia. }
  rewrite Er, Hit, Hsel. reflexivity.
Qed.

(** X13. What [follow_link] does, by the selected item. With no
    selection, a selection outside the page or an item that is not
    selectable, nothing at all happens. For a binary kind (9, I, g, s, 5, 4,
    6) only a warning is shown; for a search item (7) only the keyboard is
    opened and the item kept; in these cases the controller state is
    untouched and the network is not used. Every other selectable item is
    loaded from its own host, selector and port with [navigate_to]: as text
    for kinds 0 and h, as a menu for every other kind, known or not. *)
Theorem follow_link_dispatch (env : Env) (a : App) :
  let st := nav a in
  let its := items (current_page st) in
  ((forall it, at_index its (selected_index st) = Some it ->
               is_selectable it = false) ->
   follow_link env a = Some (a, [])) /\
  (forall it,
      at_index its (selected_index st) = Some it ->
      is_selectable it = true ->
      (is_binary_kind (item_type it) = true ->
       follow_link env a = Some (a, [warning_binary])) /\
      (item_type it = GOPHER_SEARCH ->
       follow_link env a =
         Some (set_search it true a,
               [UiOpenKeyboard
                  (firstn 127 (lit "Search: " ++ c_str (item_display it)))
                  255])) /\
      (is_binary_kind (item_type it) = false ->
       item_type it <> GOPHER_SEARCH ->
       forall port,
         item_port it = Some port ->
         follow_link env a =
           Some (set_nav
                   (navigate_to (env_net env) (c_str (item_host it))
                      (c_str (item_selector it)) port
                      (if Ascii.eqb (item_type it) GOPHER_TEXT ||
                          Ascii.eqb (item_type it) GOPHER_HTML
                       then GOPHER_TEXT else GOPHER_MENU) (nav a)) a,
                 []))).
Proof.
  intros st its. split.
  - intros Hn. unfold follow_link. fold st its.
    destruct ((selected_index st <? 0) ||
              (selected_index st >=? size its)) eqn:Er; [reflexivity|].
    apply orb_false_iff in Er. destruct Er as [E0 E1].
    destruct (at_index_Some its (selected_index st)) as [it Hit]; [lia|].
    rewrite Hit, (Hn it Hit). reflexivity.
  - intros it Hit Hsel.
    rewrite (follow_link_selected env a it Hit Hsel).
    split; [|split].
    + intros Hb. destruct (binary_kind_other _ Hb) as (-> & -> & -> & ->).
      rewrite Hb. reflexivity.
    + intros ->. reflexivity.
    + intros Hb Hs port Hp. unfold navigate_to_item. rewrite Hp, Hb.
      assert (Es : Ascii.eqb (item_type it) GOPHER_SEARCH = false).
      { destruct (Ascii.eqb (item_type it) GOPHER_SEARCH) eqn:E;
          [|reflexivity]. apply Ascii.eqb_eq in E. contradiction. }
      rewrite Es.
      destruct (Ascii.eqb (item_type it) GOPHER_MENU) eqn:Em.
      * apply Ascii.eqb_eq in Em. rewrite Em. reflexivity.
      * destruct (Ascii.eqb (item_type it) GOPHER_TEXT ||
                  Ascii.eqb (item_type it) GOPHER_HTML); reflexivity.
Qed.

Lemma follow_link_dispatch_witness :
  follow_link (example_env unreachable_net)
    (set_nav (set_selected_index 1 (nav search_example)) search_example) =
  Some (set_nav (set_selected_index 1 (nav search_example)) search_example,
        [warning_binary]).
Proof.
  apply (proj2 (follow_link_dispatch (example_env unreachable_net)
                  (set_nav (set_selected_index 1 (nav search_example))
                     search_example)) item_image); reflexivity.
Defined.





(** ** Scrolling *)

Lemma scroll_by_bounds (lines : Z) (st : State) :
  0 <= scroll_offset (scroll_by lines st) <= max_scroll st /\
  (0 <= scroll_offset st + lines <= max_scroll st ->
   scroll_offset (scroll_by lines st) = scroll_offset st + lines) /\
  current_page (scroll_by lines st) = current_page st /\
  selected_index (scroll_by lines st) = selected_index st /\
  history (scroll_by lines st) = history st /\
  is_loading (scroll_by lines st) = is_loading st.
Proof.
  assert (Hm : 0 <= max_scroll st).
  { unfold max_scroll.
    destruct (Z.ltb_spec
                (size (items (current_page st)) - visible_lines st) 0); lia. }
  unfold scroll_by. cbn.
  destruct (Z.ltb_spec (scroll_offset st + lines) 0); cbn.
  - destruct (Z.gtb_spec 0 (max_scroll st)); cbn; repeat split; lia.
  - destruct (Z.gtb_spec (scroll_offset st + lines) (max_scroll st)); cbn;
      repeat split; lia.
Qed.



(** ** The first page *)


(* ------------------------------------------------------------------ *)
(** ** Invariants of the whole application *)

Lemma app_ok_state (a : App) :
  app_ok a <->
  state_ok (nav a) /\ item_port (pending_search_item a) <> None.
Proof. unfold app_ok, state_ok, ports_defined. tauto. Qed.

Lemma parsed_ports_defined (response : str) (page : GopherPage) :
  Forall (fun it => is_selectable it = true -> item_port it <> None)
    (items (parse_gopher_menu response page)) /\
  Forall (fun it => is_selectable it = true -> item_port it <> None)
    (items (parse_text_file response page)).
Proof.
  rewrite parse_gopher_menu_items, parse_text_file_items.
  unfold menu_items_parsed, text_items_parsed. split.
  - apply Forall_forall. intros it Hin _. apply in_map_iff in Hin.
    destruct Hin as (l & <- & _). destruct l; discriminate.
  - apply Forall_forall. intros it Hin Hs. apply in_map_iff in Hin.
    destruct Hin as (l & <- & _). discriminate Hs.
Qed.

Lemma navigate_to_state_ok (net : Network) (host selector : str) (port : Z)
    (expected_type : ascii) (st : State) :
  state_ok st ->
  state_ok (navigate_to net host selector port expected_type st).
Proof.
  intros (Hv & Hc & Hp). split; [|split].
  - apply navigate_to_selection_valid. exact Hv.
  - apply navigate_to_controller_ok. exact Hc.
  - destruct (response_of net host selector port) as [|c r] eqn:E.
    + destruct (navigate_to_failed_selection net host selector port
                  expected_type st E) as [-> _]. exact Hp.
    + destruct (navigate_to_loaded net host selector port expected_type st)
        as (-> & _); [congruence|].
      destruct (Ascii.eqb expected_type GOPHER_TEXT ||
                Ascii.eqb expected_type GOPHER_HTML);
        apply parsed_ports_defined.
Qed.

Lemma go_back_state_ok (net : Network) (st : State) :
  state_ok st -> state_ok (snd (go_back net st)).
Proof.
  intros (Hv & Hc & Hp). split; [|split].
  - apply go_back_selection_valid. exact Hv.
  - apply go_back_controller_ok. exact Hc.
  - destruct (history_snoc (history st)) as [Hh|(h & e & Hh)].
    + unfold go_back. rewrite Hh. exact Hp.
    + destruct (response_of net (c_str (entry_host e))
                  (c_str (entry_selector e)) (entry_port e)) as [|c r] eqn:E.
      * destruct (go_back_failed_selection net st h e Hh E) as [-> _].
        exact Hp.
      * destruct (go_back_pop net st h e Hh) as (_ & _ & _ & Hpage).
        rewrite E in Hpage. rewrite Hpage by discriminate.
        apply parsed_ports_defined.
Qed.

Lemma draw_screen_state_ok (h : Z) (st : State) :
  state_ok st -> state_ok (draw_screen h st).
Proof. intros H. exact H. Qed.

Lemma scroll_by_state_ok (lines : Z) (st : State) :
  state_ok st -> state_ok (scroll_by lines st).
Proof.
  intros (Hv & (Hsz & Hhosts & _ & Hl) & Hp).
  destruct (scroll_by_bounds lines st) as (Hb & _ & Hpage & Hsel & Hh & Hl').
  unfold state_ok, selection_valid, controller_ok.
  rewrite Hpage, Hsel, Hh, Hl'. repeat split; try assumption. apply Hb.
Qed.

Lemma select_state_ok (i : Z) (it : GopherItem) (st : State) :
  at_index (items (current_page st)) i = Some it ->
  is_selectable it = true ->
  state_ok st -> state_ok (set_selected_index i st).
Proof.
  intros Hi Hs (_ & Hc & Hp). split; [|split; [exact Hc|exact Hp]].
  right. exists it. auto.
Qed.

Lemma at_index_In {A : Type} (v : list A) (i : Z) (x : A) :
  at_index v i = Some x -> In x v.
Proof.
  unfold at_index. destruct (i <? 0); [discriminate|].
  apply nth_error_In.
Qed.

Lemma app_ok_draw (h : Z) (a : App) :
  app_ok a -> app_ok (draw_screen_app h a).
Proof. intros H. exact H. Qed.

Lemma app_ok_set_nav (st : State) (a : App) :
  app_ok a -> state_ok st -> app_ok (set_nav st a).
Proof.
  rewrite !app_ok_state. intros [_ Hp] Hst. split; assumption.
Qed.

Lemma follow_link_app_ok (env : Env) (a : App) :
  app_ok a ->
  exists a' ui, follow_link env a = Some (a', ui) /\ app_ok a'.
Proof.
  intros Hok. destruct (proj1 (app_ok_state a) Hok) as [Hst Hpend].
  assert (Hp := proj2 (proj2 Hst)). rewrite Forall_forall in Hp.
  destruct (at_index (items (current_page (nav a))) (selected_index (nav a)))
    as [it|] eqn:Hit.
  - destruct (is_selectable it) eqn:Hsel.
    + rewrite (follow_link_selected env a it Hit Hsel).
      destruct (item_port it) as [port|] eqn:Hport;
        [|exfalso; exact (Hp it (at_index_In _ _ _ Hit) Hsel Hport)].
      assert (Hnav : forall ty,
                 exists a' ui,
                   navigate_to_item env it ty a = Some (a', ui) /\
                   app_ok a').
      { intros ty. unfold navigate_to_item. rewrite Hport.
        eexists. eexists. split; [reflexivity|].
        apply app_ok_set_nav; [exact Hok|].
        apply navigate_to_state_ok. exact Hst. }
      destruct (Ascii.eqb (item_type it) GOPHER_MENU); [apply Hnav|].
      destruct (Ascii.eqb (item_type it) GOPHER_SEARCH).
      * eexists. eexists. split; [reflexivity|]. apply app_ok_state.
        cbn. split; [exact Hst|congruence].
      * destruct (Ascii.eqb (item_type it) GOPHER_TEXT ||
                  Ascii.eqb (item_type it) GOPHER_HTML); [apply Hnav|].
        destruct (is_binary_kind (item_type it)); [|apply Hnav].
        eexists. eexists. split; [reflexivity|exact Hok].
    + exists a, []. split; [|exact Hok]. unfold follow_link.
      destruct ((selected_index (nav a) <? 0) ||
                (selected_index (nav a) >=?
                 size (items (current_page (nav a))))); [reflexivity|].
      rewrite Hit, Hsel. reflexivity.
  - exists a, []. split; [|exact Hok]. unfold follow_link.
    destruct ((selected_index (nav a) <? 0) ||
              (selected_index (nav a) >=?
               size (items (current_page (nav a))))) eqn:Er; [reflexivity|].
    apply orb_false_iff in Er.
    destruct (at_index_Some (items (current_page (nav a)))
                (selected_index (nav a))) as [x Hx]; [lia|]. congruence.
Qed.

Lemma follow_then_draw_app_ok (env : Env) (a : App) :
  app_ok a ->
  exists a' ui,
    follow_link env a = Some (a', ui) /\
    app_ok (if negb (search_pending a')
            then draw_screen_app (env_screen_height env) a' else a').
Proof.
  intros Hok. destruct (follow_link_app_ok env a Hok) as (a' & ui & H & Hok').
  exists a', ui. split; [exact H|].
  destruct (negb (search_pending a')); [apply app_ok_draw|]; exact Hok'.
Qed.

Lemma handle_key_app_ok (env : Env) (key : Key) (a : App) :
  app_ok a ->
  exists a' ui, handle_key env key a = Some (a', ui) /\ app_ok a'.
Proof.
  intros Hok. destruct (proj1 (app_ok_state a) Hok) as [Hst _].
  assert (Hback : exists a' ui,
             (let '(ok, st) := go_back (env_net env) (nav a) in
              Some (draw_screen_app (env_screen_height env) (set_nav st a),
                    if negb ok then [message_no_history] else [])) =
             Some (a', ui) /\ app_ok a').
  { pose proof (go_back_state_ok (env_net env) (nav a) Hst) as Hg.
    destruct (go_back (env_net env) (nav a)) as [ok st].
    eexists. eexists. split; [reflexivity|].
    apply app_ok_draw. apply app_ok_set_nav; assumption. }
  assert (Hfollow : exists a' ui,
             match follow_link env a with
             | None => None
             | Some (a0, ui0) =>
                 Some (if negb (search_pending a0)
                       then draw_screen_app (env_screen_height env) a0
                       else a0, ui0)
             end = Some (a', ui) /\ app_ok a').
  { destruct (follow_then_draw_app_ok env a Hok) as (a' & ui & -> & Hok').
    eexists. eexists. split; [reflexivity|exact Hok']. }
  destruct key; cbn [handle_key]; try exact Hback; try exact Hfollow;
    eexists; eexists; (split; [reflexivity|exact Hok]).
Qed.

Lemma handle_tap_app_ok (env : Env) (touch_y : Z) (a : App) :
  app_ok a ->
  exists a' ui, handle_tap env touch_y a = Some (a', ui) /\ app_ok a'.
Proof.
  intros Hok. destruct (proj1 (app_ok_state a) Hok) as [Hst Hpend].
  assert (Hsame : exists a' ui, Some (a, @nil UiCall) = Some (a', ui) /\
                                app_ok a')
    by (exists a, []; auto).
  unfold handle_tap.
  destruct (touch_y <? layout_header_height a).
  { eexists. eexists. split; [reflexivity|exact Hok]. }
  destruct ((touch_y >=? content_area_top a) &&
            (touch_y <? content_area_bottom a)); [|exact Hsame].
  set (line_index :=
         scroll_offset (nav a) +
         Z.quot (touch_y - content_area_top a) kLineHeight).
  destruct ((line_index >=? 0) &&
            (line_index <? size (items (current_page (nav a))))) eqn:Er;
    [|exact Hsame].
  apply andb_true_iff in Er.
  destruct (at_index_Some (items (current_page (nav a))) line_index)
    as [it Hit]; [lia|].
  rewrite Hit. destruct (is_selectable it) eqn:Hsel; [|exact Hsame].
  assert (Hok1 : app_ok (set_nav (set_selected_index line_index (nav a)) a)).
  { apply app_ok_set_nav; [exact Hok|].
    exact (select_state_ok line_index it (nav a) Hit Hsel Hst). }
  destruct ((line_index =? last_tap_index a) &&
            (env_time_ms env - last_tap_time a <? kDoubleTapTime)).
  - destruct (follow_then_draw_app_ok env _ Hok1) as (a' & ui & -> & Hok').
    eexists. eexists. split; [reflexivity|]. exact Hok'.
  - eexists. eexists. split; [reflexivity|]. exact Hok1.
Qed.

Lemma main_handler_app_ok (env : Env) (event : Event) (a : App) :
  app_ok a -> event <> EVT_EXIT ->
  exists r a' ui,
    main_handler env event a = Some (r, a', ui) /\ app_ok a'.
Proof.
  intros Hok Hne. destruct (proj1 (app_ok_state a) Hok) as [Hst _].
  destruct event as [| |key|x y|x y|x y| |]; cbn [main_handler];
    [| | | | | |contradiction|].
  - eexists. eexists. eexists. split; [reflexivity|exact Hok].
  - eexists. eexists. eexists. split; [reflexivity|].
    destruct (negb (initial_load_done a)); [|exact Hok].
    apply app_ok_draw.
    apply (app_ok_set_nav _ a Hok). apply navigate_to_state_ok. exact Hst.
  - destruct (handle_key_app_ok env key a Hok) as (a' & ui & -> & Hok').
    eexists. eexists. eexists. split; [reflexivity|exact Hok'].
  - eexists. eexists. eexists. split; [reflexivity|exact Hok].
  - eexists. eexists. eexists. split; [reflexivity|].
    destruct ((y - touch_start_y a >? 20) || (y - touch_start_y a <? -20));
      exact Hok.
  - destruct (touch_is_drag a).
    + eexists. eexists. eexists. split; [reflexivity|].
      destruct (negb (Z.quot (- (y - touch_start_y a)) kLineHeight =? 0));
        [|exact Hok].
      apply app_ok_draw. apply (app_ok_set_nav _ a Hok).
      apply scroll_by_state_ok. exact Hst.
    + destruct (handle_tap_app_ok env y a Hok) as (a' & ui & -> & Hok').
      eexists. eexists. eexists. split; [reflexivity|exact Hok'].
  - eexists. eexists. eexists. split; [reflexivity|exact Hok].
Qed.

Lemma search_keyboard_handler_app_ok (env : Env) (text : option str)
    (a : App) :
  app_ok a ->
  exists a', search_keyboard_handler env text a = Some a' /\ app_ok a'.
Proof.
  intros Hok. destruct (proj1 (app_ok_state a) Hok) as [Hst Hpend].
  unfold search_keyboard_handler.
  destruct text as [[|c t]|];
    try (eexists; split; [reflexivity|exact Hok]).
  destruct (item_port (pending_search_item a)) as [port|]; [|contradiction].
  eexists. split; [reflexivity|].
  apply app_ok_draw.
  apply (app_ok_set_nav _ a Hok). apply navigate_to_state_ok. exact Hst.
Qed.

Lemma bookmark_menu_handler_app_ok (env : Env) (index : Z) (a : App) :
  app_ok a -> app_ok (bookmark_menu_handler env index a).
Proof.
  intros Hok. destruct (proj1 (app_ok_state a) Hok) as [Hst _].
  unfold bookmark_menu_handler. apply app_ok_draw.
  destruct (bookmark index) as [[[host selector] port]|]; [|exact Hok].
  apply (app_ok_set_nav _ a Hok). apply navigate_to_state_ok. exact Hst.
Qed.

Lemma app_step_app_ok (env : Env) (input : Input) (a : App) :
  app_ok a -> input <> InEvent EVT_EXIT ->
  exists a', app_step env input a = Some a' /\ app_ok a'.
Proof.
  intros Hok Hne. destruct input as [event|text|index]; cbn [app_step].
  - destruct (main_handler_app_ok env event a Hok)
      as (r & a' & ui & -> & Hok'); [congruence|].
    exists a'. auto.
  - apply search_keyboard_handler_app_ok. exact Hok.
  - eexists. split; [reflexivity|].
    apply bookmark_menu_handler_app_ok. exact Hok.
Qed.

(** X18. The invariants hold of the whole application. In every state
    reached from the start state by handler calls that return, for any
    sequence of events (keys, taps, double taps, swipes, shows), texts
    handed back by the keyboard and bookmark choices, short of [EVT_EXIT]
    and whatever the network, the screen and the clock are at each step:
    the selection is -1 or the index of a selectable item of the page, the
    history has at most 50 entries, all with a host, the scroll offset is
    not negative, no load is marked as running, and every selectable item
    and the item kept for a search has a port, which is the port
    [follow_link] and [search_keyboard_handler] read. Each handler keeps
    these facts from any state that has them. *)
Theorem app_invariants :
  app_ok initial_app /\
  (forall env input a a',
      app_ok a -> input <> InEvent EVT_EXIT ->
      app_step env input a = Some a' -> app_ok a') /\
  (forall inputs a',
      Forall (fun p => snd p <> InEvent EVT_EXIT) inputs ->
      app_run inputs initial_app = Some a' -> app_ok a').
Proof.
  assert (Hinit : app_ok initial_app).
  { unfold app_ok, ports_defined. cbn. split; [left; reflexivity|].
    split; [|split; [constructor|discriminate]].
    unfold controller_ok, kMaxHistory. cbn.
    repeat split; try lia. constructor. }
  assert (Hstep : forall env input a a',
             app_ok a -> input <> InEvent EVT_EXIT ->
             app_step env input a = Some a' -> app_ok a').
  { intros env input a a' Hok Hne H.
    destruct (app_step_app_ok env input a Hok Hne) as (a1 & H1 & Hok1).
    rewrite H1 in H. injection H as <-. exact Hok1. }
  split; [exact Hinit|]. split; [exact Hstep|].
  intros inputs. generalize initial_app Hinit.
  induction inputs as [|[env input] rest IH]; intros a Hok a' Hall H;
    cbn [app_run] in H.
  - injection H as <-. exact Hok.
  - inversion Hall as [|? ? Hne Hrest]; subst. cbn [snd] in Hne.
    destruct (app_step env input a) as [a1|] eqn:E; [|discriminate].
    exact (IH a1 (Hstep env input a a1 Hok Hne E) a' Hrest H).
Qed.

Lemma app_invariants_witness :
  exists a',
    app_run
      [(example_env (serving_net [sample_listing]), InEvent EVT_SHOW);
       (example_env unreachable_net, InEvent (EVT_KEYPRESS KEY_NEXT));
       (example_env unreachable_net, InEvent (EVT_POINTERUP 10 50));
       (example_env unreachable_net, InKeyboard (Some (lit "term")));
       (example_env unreachable_net, InMenu 2)] initial_app = Some a' /\
    app_ok a'.
Proof.
  destruct app_invariants as (_ & _ & Hrun).
  match goal with
  | |- exists a', app_run ?inputs _ = _ /\ _ =>
      destruct (app_run inputs initial_app) as [a1|] eqn:E;
        [exists a1; split; [reflexivity|]; apply (Hrun inputs a1); [|exact E]
        |exfalso; vm_compute in E; discriminate]
  end.
  repeat constructor; discriminate.
Defined.

(* ------------------------------------------------------------------ *)
(** ** The status buffer *)

Lemma firstn_no_nul (n : nat) (s : str) : ~ In NUL s -> ~ In NUL (firstn n s).
Proof.
  intros H Hin. apply H. rewrite <- (firstn_skipn n s). apply in_app_iff.
  left. exact Hin.
Qed.

(** X19. The status message fits its buffer. Whatever text [set_status]
    is given, the message kept is a prefix of it with at most 255 characters
    and no NUL, so it fits the 256-byte buffer with its terminator; a text
    of at most 255 characters without NUL is kept as it is; and nothing else
    of the state changes. *)
Theorem status_fits_buffer (msg : str) (st : State) :
  size (status_message (set_status msg st)) <= 255 /\
  ~ In NUL (status_message (set_status msg st)) /\
  (exists rest, msg = status_message (set_status msg st) ++ rest) /\
  (size msg <= 255 -> ~ In NUL msg ->
   status_message (set_status msg st) = msg) /\
  same_but_status st (set_status msg st).
Proof.
  cbn [set_status status_message]. split; [|split; [|split; [|split]]].
  - unfold size. rewrite length_firstn. lia.
  - apply firstn_no_nul. apply c_str_no_nul.
  - assert (Hc : exists r, msg = c_str msg ++ r).
    { induction msg as [|c m [r IH]]; [exists []; reflexivity|].
      cbn [c_str]. destruct (Ascii.eqb c NUL).
      - exists (c :: m). reflexivity.
      - exists r. cbn [app]. rewrite <- IH. reflexivity. }
    destruct Hc as [r Hr].
    exists (skipn 255 (c_str msg) ++ r).
    rewrite app_assoc, firstn_skipn. exact Hr.
  - intros Hs Hn. rewrite c_str_id by exact Hn.
    apply firstn_all2. unfold size in Hs. lia.
  - apply same_but_status_set.
Qed.

Lemma status_fits_buffer_witness :
  status_message (set_status (lit "Loading...") initial_state) =
    lit "Loading...".
Proof.
  apply (status_fits_buffer (lit "Loading...") initial_state).
  - cbv. discriminate.
  - cbv. intuition discriminate.
Defined.

(* ------------------------------------------------------------------ *)
(** ** Taps *)




(* ------------------------------------------------------------------ *)
(** ** The divisions of the drawing *)

Lemma quot_line_height (x : Z) :
  (kLineHeight <= x -> 1 <= Z.quot x kLineHeight) /\
  (- kLineHeight < x < kLineHeight -> Z.quot x kLineHeight = 0) /\
  (x <= - kLineHeight -> Z.quot x kLineHeight < 0).
Proof.
  unfold kLineHeight, kFontSize.
  pose proof (Z.quot_rem' x (14 + 4)) as E.
  destruct (Z_le_gt_dec 0 x) as [Hx|Hx].
  - pose proof (Z.rem_bound_pos_pos x (14 + 4) ltac:(lia) Hx).
    repeat split; intros; lia.
  - pose proof (Z.rem_bound_pos_neg x (14 + 4) ltac:(lia) ltac:(lia)).
    repeat split; intros; lia.
Qed.

(** X21. The divisions of [draw_screen]. The number of visible lines is
    the truncated quotient of [screen_height - 74] by the line height 18.
    From a screen height of 92 on it is at least 1, and both divisions of
    [draw_screen] (by [items_count] for the scroll bar, by [visible_lines]
    for the page indicator) have a divisor that is not 0, whatever the
    state. For a height from 57 to 91 it is 0, and the page indicator
    divides by zero whatever the state. Below 57 it is negative, and the
    scroll bar divides by an [items_count] of 0 exactly when the page has
    no item. *)
Theorem draw_screen_divisors (h : Z) (st : State) :
  (92 <= h ->
   1 <= visible_lines (draw_screen h st) /\
   draw_screen_divides h st = true) /\
  (57 <= h <= 91 ->
   visible_lines (draw_screen h st) = 0 /\
   draw_screen_divides h st = false) /\
  (h <= 56 ->
   visible_lines (draw_screen h st) < 0 /\
   (draw_screen_divides h st = true <-> items (current_page st) <> [])).
Proof.
  unfold draw_screen_divides.
  change (visible_lines (draw_screen h st))
    with (Z.quot (h - header_height - 30 - kScreenMargin) kLineHeight).
  set (x := h - header_height - 30 - kScreenMargin).
  assert (Hx : x = h - 74)
    by (unfold x, header_height, kScreenMargin, kTitleFontSize, kFontSize;
        lia).
  destruct (quot_line_height x) as (Hpos & Hzero & Hneg).
  assert (Hk : kLineHeight = 18) by reflexivity.
  pose proof (size_nonneg (items (current_page st))) as Hn.
  split; [|split].
  - intros Hh. assert (Hq : 1 <= Z.quot x kLineHeight) by (apply Hpos; lia).
    split; [exact Hq|]. apply andb_true_iff. split.
    + destruct (size (items (current_page st)) >? Z.quot x kLineHeight)
        eqn:E; [|reflexivity].
      apply negb_true_iff, Z.eqb_neq. lia.
    + apply negb_true_iff, Z.eqb_neq. lia.
  - intros Hh. assert (Hq : Z.quot x kLineHeight = 0) by (apply Hzero; lia).
    split; [exact Hq|]. rewrite Hq. apply andb_false_r.
  - intros Hh. assert (Hq : Z.quot x kLineHeight < 0) by (apply Hneg; lia).
    split; [exact Hq|].
    replace (size (items (current_page st)) >? Z.quot x kLineHeight)
      with true by (symmetry; apply Z.gtb_lt; lia).
    replace (Z.quot x kLineHeight =? 0) with false
      by (symmetry; apply Z.eqb_neq; lia).
    rewrite andb_true_r, negb_true_iff, Z.eqb_neq.
    unfold size. destruct (items (current_page st)); cbn [List.length].
    + split; [lia|congruence].
    + split; [discriminate|lia].
Qed.

Lemma draw_screen_divisors_witness :
  (visible_lines (draw_screen 800 visited_state) = 40 /\
   draw_screen_divides 800 visited_state = true) /\
  (visible_lines (draw_screen 80 visited_state) = 0 /\
   draw_screen_divides 80 visited_state = false) /\
  draw_screen_divides 50 initial_state = false.
Proof.
  destruct (draw_screen_divisors 800 visited_state) as (Hhigh & _ & _).
  destruct (draw_screen_divisors 80 visited_state) as (_ & Hmid & _).
  destruct (draw_screen_divisors 50 initial_state) as (_ & _ & Hlow).
  split; [|split].
  - destruct (Hhigh ltac:(lia)) as [_ Hd]. split; [reflexivity|exact Hd].
  - apply Hmid. lia.
  - destruct (Hlow ltac:(lia)) as [_ Hiff].
    destruct (draw_screen_divides 50 initial_state); [|reflexivity].
    exfalso. apply (proj1 Hiff eq_refl). reflexivity.
Defined.
